(** * ts-either: the Either type and its combinators (src/index.ts)

    A shallow embedding of the library.  An [Either] object (a frozen
    object with a [type] tag and a [value]) is a two-constructor inductive
    type.  Every exported function is embedded as a computation in a small
    state-and-exception monad [M W]: caller-supplied functions (selectors,
    handlers, thunks) are ordinary JavaScript functions, so they may throw
    and may change caller state; [W] is that state, opaque to the library. *)

From Stdlib Require Import List String Ascii Bool Arith NArith Lia.
From Stdlib Require Import Permutation.
Import ListNotations.
Open Scope string_scope.
Open Scope list_scope.

Set Implicit Arguments.

(** ** Effects: thrown values and caller state *)

(** What a [throw] statement carries.  [Error] is [new Error(message)];
    [TypeError] is what the runtime raises on a property read of
    [undefined]. *)
Inductive exn : Type :=
  | Error (message : string)
  | TypeError (message : string).

Inductive outcome (A : Type) : Type :=
  | Return (a : A)
  | Throw (e : exn).
Arguments Return {A} a.
Arguments Throw {A} e.

Definition M (W A : Type) : Type := W -> outcome A * W.

Definition ret {W A} (a : A) : M W A := fun w => (Return a, w).

Definition throw {W A} (e : exn) : M W A := fun w => (Throw e, w).

Definition bind {W A B} (m : M W A) (k : A -> M W B) : M W B :=
  fun w =>
    match m w with
    | (Return a, w') => k a w'
    | (Throw e, w') => (Throw e, w')
    end.

Notation "x <- m ;; k" := (bind m (fun x => k))
  (at level 61, m at next level, right associativity).

(** Two computations are the same when they agree on every caller state. *)
Definition same {W A} (m1 m2 : M W A) : Prop := forall w, m1 w = m2 w.
Infix "≡" := same (at level 70, no associativity).

(** ** The Either type (index.ts, lines 1-39) *)

Inductive Either (E T : Type) : Type :=
  | Right (value : T)
  | Left (value : E).
Arguments Right {E T} value.
Arguments Left {E T} value.

(** The [type] property of the object. *)
Definition type {E T} (this : Either E T) : string :=
  match this with
  | Right _ => "right"
  | Left _ => "left"
  end.

Definition isRight {E T} (value : Either E T) : bool := type value =? "right".
Definition isLeft {E T} (value : Either E T) : bool := type value =? "left".

(** [Either.toString]: the template [`(${this.type} ${this.value})`].
    A template literal converts the payload to a string with the host
    language's string conversion, which runs the payload's own [toString]
    when it is an object (caller code, with its effects) and throws a
    [TypeError] when the payload has no string form (a Symbol).  The
    conversion is therefore a parameter in the effect monad, one per
    side. *)
Definition toString {W E T} (renderE : E -> M W string) (renderT : T -> M W string)
    (this : Either E T) : M W string :=
  match this with
  | Right value => s <- renderT value ;; ret ("(" ++ type this ++ " " ++ s ++ ")")%string
  | Left value => s <- renderE value ;; ret ("(" ++ type this ++ " " ++ s ++ ")")%string
  end.

(** Two kinds of payload and their string conversion: a string converts
    to itself, a Symbol cannot be converted. *)
Inductive Payload : Type :=
  | Text (s : string)
  | Symbol (description : string).

Definition ToString {W} (p : Payload) : M W string :=
  match p with
  | Text s => ret s
  | Symbol _ => throw (TypeError "Cannot convert a Symbol value to a string")
  end.

(** The failure kinds of the collection lifters (enums, lines 56-59, 71-73). *)
Inductive TakeSingleError : Type :=
  | TakeSingleError_Empty
  | TakeSingleError_MoreThanOne.

Inductive TakeFirstError : Type :=
  | TakeFirstError_Empty.

(** ** caseOf and the combinators built on it (lines 41-176) *)

Section Combinators.
Context {W : Type}.

Record Actions (E T R : Type) : Type := {
  right : T -> M W R;
  left : E -> M W R;
}.

Definition caseOf {E T R} (actions : Actions E T R) (input : Either E T) : M W R :=
  match input with
  | Right value => right actions value
  | Left value => left actions value
  end.

Definition mapLeft {E E2 T} (selector : E -> M W E2) (input : Either E T)
    : M W (Either E2 T) :=
  caseOf {| right := fun x => ret (Right x);
            left := fun leftValue => v <- selector leftValue ;; ret (Left v) |}
         input.

Definition toArray {E T} (input : Either E T) : M W (list T) :=
  caseOf {| right := fun x => ret [x];
            left := fun _ => ret [] |}
         input.

(** [input[0]]: an index read outside the array yields [undefined]. *)
Definition index {T} (undefined : T) (input : list T) (i : nat) : T :=
  nth i input undefined.

Definition singleFromArray {T} (undefined : T) (input : list T)
    : M W (Either TakeSingleError T) :=
  if (List.length input =? 0)%nat then ret (Left TakeSingleError_Empty)
  else if (1 <? List.length input)%nat then ret (Left TakeSingleError_MoreThanOne)
  else ret (Right (index undefined input 0)).

Definition firstFromArray {T} (undefined : T) (input : list T)
    : M W (Either TakeFirstError T) :=
  if (0 <? List.length input)%nat then ret (Right (index undefined input 0))
  else ret (Left TakeFirstError_Empty).

Definition defaultTo {E T} (defaultValue : T) (input : Either E T) : M W T :=
  caseOf {| right := fun x => ret x;
            left := fun _ => ret defaultValue |}
         input.

(** The message is a template literal: the payload is converted to a
    string ([render], see [toString]) before the [Error] is built, so what
    the conversion throws or changes comes first. *)
Definition getRightOrFail {E T} (render : E -> M W string) (input : Either E T) : M W T :=
  caseOf {| right := fun x => ret x;
            left := fun e =>
              s <- render e ;;
              throw (Error ("Tried to get right out of a left: " ++ s)) |}
         input.

Definition getLeftOrFail {E T} (render : T -> M W string) (input : Either E T) : M W E :=
  caseOf {| right := fun t =>
              s <- render t ;;
              throw (Error ("Tried to get left out of a right: " ++ s));
            left := fun e => ret e |}
         input.

(** Functor *)
Definition map {E T R} (selector : T -> M W R) (input : Either E T) : M W (Either E R) :=
  caseOf {| right := fun value => r <- selector value ;; ret (Right r);
            left := fun e => ret (Left e) |}
         input.

Definition flap {E T R} (func : Either E (T -> M W R)) (value : T) : M W (Either E R) :=
  map (fun f => f value) func.

(** Bifunctor *)
Definition bimap {E T ER TR} (leftSelector : E -> M W ER) (rightSelector : T -> M W TR)
    (input : Either E T) : M W (Either ER TR) :=
  caseOf {| right := fun value => r <- rightSelector value ;; ret (Right r);
            left := fun value => l <- leftSelector value ;; ret (Left l) |}
         input.

(** Chain *)
Definition chain {E T R} (selector : T -> M W (Either E R)) (input : Either E T)
    : M W (Either E R) :=
  caseOf {| right := selector;
            left := fun e => ret (Left e) |}
         input.

(** Alt *)
Definition alt {E T} (a b : Either E T) : M W (Either E T) :=
  if isRight a then ret a else ret b.

Definition altLazy {E T} (a : Either E T) (b : unit -> M W (Either E T))
    : M W (Either E T) :=
  if isRight a then ret a else b tt.

(** Extend *)
Definition extend {E T R} (selector : Either E T -> M W R) (input : Either E T)
    : M W (Either E R) :=
  match input with
  | Right _ => r <- selector input ;; ret (Right r)
  | Left value => ret (Left value)
  end.

(** Apply *)
Definition apply {E T R} (func : Either E (T -> M W R)) (value : Either E T)
    : M W (Either E R) :=
  match func with
  | Right f => map f value
  | Left e => ret (Left e)
  end.

(** [lift2], [lift3]: [func] is curried, so [func(t1.value)(t2.value)] is
    one call per argument, each of which may have effects. *)
Definition lift2 {E T1 T2 R} (func : T1 -> M W (T2 -> M W R))
    (t1 : Either E T1) (t2 : Either E T2) : M W (Either E R) :=
  match t1 with
  | Left e1 => ret (Left e1)
  | Right v1 =>
      match t2 with
      | Left e2 => ret (Left e2)
      | Right v2 => g <- func v1 ;; r <- g v2 ;; ret (Right r)
      end
  end.

Definition lift3 {E T1 T2 T3 R} (func : T1 -> M W (T2 -> M W (T3 -> M W R)))
    (t1 : Either E T1) (t2 : Either E T2) (t3 : Either E T3) : M W (Either E R) :=
  match t1 with
  | Left e1 => ret (Left e1)
  | Right v1 =>
      match t2 with
      | Left e2 => ret (Left e2)
      | Right v2 =>
          match t3 with
          | Left e3 => ret (Left e3)
          | Right v3 => g <- func v1 ;; h <- g v2 ;; r <- h v3 ;; ret (Right r)
          end
      end
  end.

Definition applyFirst {E T1 T2} (first : Either E T1) (second : Either E T2)
    : M W (Either E T1) :=
  match first with
  | Left e1 => ret (Left e1)
  | Right _ =>
      match second with
      | Left e2 => ret (Left e2)
      | Right _ => ret first
      end
  end.

Definition applySecond {E T1 T2} (first : Either E T1) (second : Either E T2)
    : M W (Either E T2) :=
  match first with
  | Left e1 => ret (Left e1)
  | Right _ =>
      match second with
      | Left e2 => ret (Left e2)
      | Right _ => ret second
      end
  end.

(** Applicative: [of = Right], used as a function ([of] is reserved in
    Rocq, hence the underscore). *)
Definition of_ {E T} (value : T) : M W (Either E T) := ret (Right value).

End Combinators.

Arguments Actions : clear implicits.

(** ** Plain objects used as records

    [liftProps] and [liftPropsCollect] read their input with [Object.keys]
    and [_input[key]] and fill a fresh object with [result[key] = ...].  An
    object is modelled by its own enumerable string-keyed properties, in the
    order in which they were created; a well-formed object holds each key
    once. *)

Definition Obj (V : Type) : Type := list (string * V).

Definition wf_obj {V} (o : Obj V) : Prop := NoDup (List.map fst o).

Definition digit (c : ascii) : option N :=
  let n := N_of_ascii c in
  if ((48 <=? n) && (n <=? 57))%N then Some (n - 48)%N else None.

Fixpoint parse_digits (s : string) (acc : N) : option N :=
  match s with
  | EmptyString => Some acc
  | String c s' =>
      match digit c with
      | Some d => parse_digits s' (10 * acc + d)%N
      | None => None
      end
  end.

(** A property key is an array index when it is the canonical decimal
    form of an integer below 2^32 - 1. *)
Definition array_index (key : string) : option N :=
  match key with
  | EmptyString => None
  | String "0"%char EmptyString => Some 0%N
  | String "0"%char _ => None
  | _ =>
      match parse_digits key 0 with
      | Some n => if (n <? 4294967295)%N then Some n else None
      | None => None
      end
  end.

Definition is_index (key : string) : bool :=
  match array_index key with Some _ => true | None => false end.

Fixpoint insert_index {V} (n : N) (p : string * V) (l : list (N * (string * V)))
    : list (N * (string * V)) :=
  match l with
  | [] => [(n, p)]
  | (m, q) :: l' =>
      if (n <=? m)%N then (n, p) :: l else (m, q) :: insert_index n p l'
  end.

Fixpoint indexed {V} (o : Obj V) : list (N * (string * V)) :=
  match o with
  | [] => []
  | p :: o' =>
      match array_index (fst p) with
      | Some n => insert_index n p (indexed o')
      | None => indexed o'
      end
  end.

(** The order of [Object.keys]: array-index keys in ascending numeric
    order, then the other keys in creation order. *)
Definition Object_entries {V} (o : Obj V) : Obj V :=
  List.map snd (indexed o) ++ filter (fun p => negb (is_index (fst p))) o.

Definition Object_keys {V} (o : Obj V) : list string :=
  List.map fst (Object_entries o).

(** [o[key]]: [None] stands for [undefined]. *)
Fixpoint get {V} (o : Obj V) (key : string) : option V :=
  match o with
  | [] => None
  | (k, v) :: o' => if k =? key then Some v else get o' key
  end.

Fixpoint define {V} (o : Obj V) (key : string) (v : V) : Obj V :=
  match o with
  | [] => [(key, v)]
  | (k, x) :: o' => if k =? key then (k, v) :: o' else (k, x) :: define o' key v
  end.

(** [o[key] = v] on a fresh ordinary object.  The key [__proto__] is the
    accessor inherited from [Object.prototype]: the assignment runs its
    setter and creates no own property.  When [v] is an object the setter
    also replaces the prototype of [o], after which later writes depend
    on that object; the model does not follow the prototype, so every
    statement about what the lifters return is made for records with no
    field named [__proto__]. *)
Definition set {V} (o : Obj V) (key : string) (v : V) : Obj V :=
  if key =? "__proto__" then o else define o key v.

(** Two objects that show the same entries in the same enumeration order. *)
Definition same_record {V} (a b : Obj V) : Prop :=
  Object_entries a = Object_entries b.

Section RecordLifters.
Context {W : Type}.

Definition undefined_type : exn :=
  TypeError "Cannot read properties of undefined (reading 'type')".

(** The [for (const key of Object.keys(_input))] loop of [liftProps],
    with [result] as the object being filled. *)
Fixpoint liftProps_loop {E V} (_input : Obj (Either E V)) (keys : list string)
    (result : Obj V) : M W (Either E (Obj V)) :=
  match keys with
  | [] => ret (Right result)
  | key :: rest =>
      match get _input key with
      | None => throw undefined_type
      | Some (Left e) => ret (Left e)
      | Some (Right v) => liftProps_loop _input rest (set result key v)
      end
  end.

Definition liftProps {E V} (input : Obj (Either E V)) : M W (Either E (Obj V)) :=
  liftProps_loop input (Object_keys input) [].

Fixpoint liftPropsCollect_loop {E V} (_input : Obj (Either E V)) (keys : list string)
    (result : Obj V) (errors : list E) : M W (Either (list E) (Obj V)) :=
  match keys with
  | [] =>
      if (List.length errors =? 0)%nat then ret (Right result) else ret (Left errors)
  | key :: rest =>
      match get _input key with
      | None => throw undefined_type
      | Some (Left e) => liftPropsCollect_loop _input rest result (errors ++ [e])
      | Some (Right v) =>
          if (List.length errors =? 0)%nat
          then liftPropsCollect_loop _input rest (set result key v) errors
          else liftPropsCollect_loop _input rest result errors
      end
  end.

Definition liftPropsCollect {E V} (input : Obj (Either E V))
    : M W (Either (list E) (Obj V)) :=
  liftPropsCollect_loop input (Object_keys input) [] [].

End RecordLifters.

(** ** Observing calls: a log beside the caller state *)

(** [logged entry h] is the function [h] instrumented to append
    [entry x] to a log each time it is called with [x].  The log lives
    beside the caller state, where [h] itself cannot touch it. *)
Definition logged {W A B C} (entry : A -> C) (h : A -> M W B)
    : A -> M (list C * W) B :=
  fun x s =>
    match h x (snd s) with
    | (o, w') => (o, (fst s ++ [entry x], w'))
    end.

Inductive Call (E T : Type) : Type :=
  | CallRight (value : T)
  | CallLeft (value : E).
Arguments CallRight {E T} value.
Arguments CallLeft {E T} value.

(** The log entry of the handler that matches a value. *)
Definition call_of {E T} (e : Either E T) : Call E T :=
  match e with
  | Right v => CallRight v
  | Left x => CallLeft x
  end.

Definition traced {W E T R} (actions : Actions W E T R)
    : Actions (list (Call E T) * W) E T R :=
  {| right := logged CallRight (right actions);
     left := logged CallLeft (left actions) |}.

(** A computation returns normally when, from every caller state, it ends
    in a [Return]; a function is total when every call does. *)
Definition returns {W A} (m : M W A) : Prop :=
  forall w, exists a w', m w = (Return a, w').

Definition total {W A B} (f : A -> M W B) : Prop :=
  forall x, returns (f x).

(** A computation returns normally from the caller state [w]. *)
Definition returns_at {W A} (m : M W A) (w : W) : Prop :=
  exists a w', m w = (Return a, w').

(** One step of filling the result: [result[key] = value]. *)
Definition set_entry {V} (result : Obj V) (p : string * V) : Obj V :=
  set result (fst p) (snd p).

(** The payload of the first Left field, the payloads of all Left
    fields, and the fields that are Right with their payloads. *)
Fixpoint first_left {E V} (fields : list (string * Either E V)) : option E :=
  match fields with
  | [] => None
  | (_, Left e) :: _ => Some e
  | (_, Right _) :: rest => first_left rest
  end.

Fixpoint lefts {E V} (fields : list (string * Either E V)) : list E :=
  match fields with
  | [] => []
  | (_, Left e) :: rest => e :: lefts rest
  | (_, Right _) :: rest => lefts rest
  end.

Fixpoint unwrapped {E V} (fields : list (string * Either E V)) : Obj V :=
  match fields with
  | [] => []
  | (_, Left _) :: rest => unwrapped rest
  | (k, Right v) :: rest => (k, v) :: unwrapped rest
  end.

(** The record whose fields are the Rights of the fields of [u]. *)
Definition wrap {E V} (u : Obj V) : Obj (Either E V) :=
  List.map (fun p => (fst p, Right (snd p))) u.

Definition all_right {E V} (fields : list (string * Either E V)) : bool :=
  forallb (fun p => isRight (snd p)) fields.

(** A list of indexed entries is sorted when the indices ascend and every
    entry carries the index of its own key. *)
Definition le_head {V} (n : N) (l : list (N * (string * V))) : Prop :=
  match l with
  | [] => True
  | (m, _) :: _ => (n <= m)%N
  end.

Fixpoint sorted {V} (l : list (N * (string * V))) : Prop :=
  match l with
  | [] => True
  | (n, p) :: l' => le_head n l' /\ array_index (fst p) = Some n /\ sorted l'
  end.

(** ** Either values as objects (index.ts, lines 19-36)

    [Right] and [Left] build their value with
    [Object.freeze(Object.create(Either, getPropertyDescriptor(...)))].
    An object is modelled by its prototype, its own properties with
    their attributes, in creation order, and its extensible flag. *)

(** What a property of an Either object holds: the tag, a string, or the
    payload. *)
Inductive JsValue (X : Type) : Type :=
  | JsString (s : string)
  | JsPayload (x : X).
Arguments JsString {X} s.
Arguments JsPayload {X} x.

(** A property descriptor as written in an object literal: an attribute
    that the literal leaves out is absent. *)
Record PropertyDescriptor (X : Type) : Type := {
  value : JsValue X;
  writable : option bool;
  enumerable : option bool;
  configurable : option bool;
}.

Definition PropertyDescriptorMap (X : Type) : Type :=
  list (string * PropertyDescriptor X).

Definition getPropertyDescriptor {X} (type : string) (value : X)
    : PropertyDescriptorMap X :=
  [("type", {| value := JsString type; writable := None;
               enumerable := Some true; configurable := None |});
   ("value", {| value := JsPayload value; writable := None;
                enumerable := Some true; configurable := None |})].

(** An own data property with its attributes. *)
Record Property (X : Type) : Type := {
  held : JsValue X;
  is_writable : bool;
  is_enumerable : bool;
  is_configurable : bool;
}.

(** The prototype objects in play: the [Either] constant, which holds
    [toString], and [Object.prototype]. *)
Inductive Prototype : Type :=
  | Either_prototype
  | Object_prototype.

Record JsObject (X : Type) : Type := {
  prototype : Prototype;
  properties : list (string * Property X);
  extensible : bool;
}.

(** Defining a property on a fresh object: an absent attribute is false. *)
Definition to_property {X} (d : PropertyDescriptor X) : Property X :=
  {| held := value d;
     is_writable := match writable d with Some b => b | None => false end;
     is_enumerable := match enumerable d with Some b => b | None => false end;
     is_configurable := match configurable d with Some b => b | None => false end |}.

(** [Object.create(proto, descriptors)]. *)
Definition Object_create {X} (proto : Prototype) (descriptors : PropertyDescriptorMap X)
    : JsObject X :=
  {| prototype := proto;
     properties := List.map (fun kd => (fst kd, to_property (snd kd))) descriptors;
     extensible := true |}.

(** [Object.freeze(o)]: no property can be added, and every own property
    becomes read-only and permanent. *)
Definition Object_freeze {X} (o : JsObject X) : JsObject X :=
  {| prototype := prototype o;
     properties :=
       List.map (fun kp => (fst kp,
                            {| held := held (snd kp);
                               is_writable := false;
                               is_enumerable := is_enumerable (snd kp);
                               is_configurable := false |}))
                (properties o);
     extensible := false |}.

(** The constructors, as objects. *)
Definition Right_object {T} (value : T) : JsObject T :=
  Object_freeze (Object_create Either_prototype (getPropertyDescriptor "right" value)).

Definition Left_object {E} (value : E) : JsObject E :=
  Object_freeze (Object_create Either_prototype (getPropertyDescriptor "left" value)).

(** [o[key]] on own properties, and the keys [Object.keys(o)] lists. *)
Definition own {X} (o : JsObject X) (key : string) : option (Property X) :=
  get (properties o) key.

Definition read {X} (o : JsObject X) (key : string) : option (JsValue X) :=
  match own o key with
  | Some p => Some (held p)
  | None => None
  end.

Definition enumerable_keys {X} (o : JsObject X) : list string :=
  Object_keys (filter (fun kp => is_enumerable (snd kp)) (properties o)).

(** Whether an assignment [o[key] = v], a [delete o[key]] or a
    [Object.defineProperty(o, key, ...)] can change the object: an own
    property must be writable to be assigned and configurable to be
    deleted, and a new property needs an extensible object. *)
Definition can_assign {X} (o : JsObject X) (key : string) : bool :=
  match own o key with
  | Some p => is_writable p
  | None => extensible o
  end.

Definition can_delete {X} (o : JsObject X) (key : string) : bool :=
  match own o key with
  | Some p => is_configurable p
  | None => false
  end.

Definition can_define {X} (o : JsObject X) (key : string) : bool :=
  match own o key with
  | Some p => is_configurable p || is_writable p
  | None => extensible o
  end.

(** The Either value an object stands for, read from its [type] and
    [value] properties as [isRight] and [caseOf] read them. *)
Definition as_Either {X} (o : JsObject X) : option (Either X X) :=
  match read o "type", read o "value" with
  | Some (JsString t), Some (JsPayload x) =>
      if t =? "right" then Some (Right x)
      else if t =? "left" then Some (Left x)
      else None
  | _, _ => None
  end.

(** ** Sample inputs *)

(** A curried function whose first application throws. *)
Definition throwing {W} : nat -> M W (nat -> M W nat) :=
  fun _ => throw (Error "boom").

(** A curried function whose first application counts itself in the
    caller state. *)
Definition counting : nat -> M nat (nat -> M nat nat) :=
  fun x n => (Return (fun y => ret (x + y)), S n).

(** The record of the specification's fail-fast example, one whose first
    declared field is not the first one enumerated, and one with Right
    fields only. *)
Definition example_fields : Obj (Either string nat) :=
  [("a", Left "x"); ("b", Left "y"); ("c", Right 1)].

Definition index_key_fields : Obj (Either string nat) :=
  [("b", Left "x"); ("1", Left "y")].

Definition plain_fields : Obj (Either string nat) :=
  [("a", Right 1); ("2", Right 2)].

(** A record of plain values, one of its keys an array index. *)
Definition plain_values : Obj nat := [("a", 1); ("0", 3)].

(** * Proofs *)

(** ** Basic facts about the monad *)

Lemma returns_ret {W A} (a : A) : returns (W:=W) (ret a).
Proof. intros w. exists a, w. reflexivity. Qed.

Lemma returns_bind {W A B} (m : M W A) (k : A -> M W B) :
  returns m -> total k -> returns (x <- m ;; k x).
Proof.
  intros Hm Hk w. unfold bind.
  destruct (Hm w) as (a & w1 & ->).
  apply Hk.
Qed.

Lemma bind_ret_l {W A B} (a : A) (k : A -> M W B) : (x <- ret a ;; k x) ≡ k a.
Proof. intros w. reflexivity. Qed.

Lemma bind_ret_r {W A} (m : M W A) : (x <- m ;; ret x) ≡ m.
Proof.
  intros w. unfold bind, ret.
  destruct (m w) as [[a | e] w']; reflexivity.
Qed.

Lemma bind_assoc {W A B C} (m : M W A) (k : A -> M W B) (h : B -> M W C) :
  (y <- (x <- m ;; k x) ;; h y) ≡ (x <- m ;; y <- k x ;; h y).
Proof.
  intros w. unfold bind.
  destruct (m w) as [[a | e] w']; reflexivity.
Qed.

(** ** Dispatch *)

Lemma isRight_Right {E T} (v : T) : isRight (@Right E T v) = true.
Proof. reflexivity. Qed.

Lemma isRight_Left {E T} (x : E) : isRight (@Left E T x) = false.
Proof. reflexivity. Qed.

Lemma isLeft_Right {E T} (v : T) : isLeft (@Right E T v) = false.
Proof. reflexivity. Qed.

Lemma isLeft_Left {E T} (x : E) : isLeft (@Left E T x) = true.
Proof. reflexivity. Qed.

Lemma isLeft_negb_isRight {E T} (e : Either E T) : isLeft e = negb (isRight e).
Proof. destruct e; reflexivity. Qed.

(** C2. For every Either value exactly one of [isRight] and [isLeft]
    holds, and [caseOf] runs exactly the handler of the value's variant:
    the call is that handler applied to the payload (so it returns the
    handler's result), and with both handlers instrumented the log gains
    exactly one entry, the matching handler's, carrying the payload. *)
Theorem caseOf_dispatch :
  forall (W E T R : Type) (actions : Actions W E T R),
    (forall e : Either E T,
        (isRight e = true /\ isLeft e = false) \/
        (isRight e = false /\ isLeft e = true)) /\
    (forall v : T, isRight (@Right E T v) = true /\
        caseOf actions (Right v) ≡ right actions v) /\
    (forall x : E, isLeft (@Left E T x) = true /\
        caseOf actions (Left x) ≡ left actions x) /\
    (forall (v : T) log w,
        caseOf (traced actions) (Right v) (log, w) =
        (fst (right actions v w), (log ++ [CallRight v], snd (right actions v w)))) /\
    (forall (x : E) log w,
        caseOf (traced actions) (Left x) (log, w) =
        (fst (left actions x w), (log ++ [CallLeft x], snd (left actions x w)))).
Proof.
  intros W E T R actions. repeat split.
  - intros [v | x]; [left | right]; split; reflexivity.
  - intros v log w. cbn. unfold logged. cbn.
    destruct (right actions v w); reflexivity.
  - intros x log w. cbn. unfold logged. cbn.
    destruct (left actions x w); reflexivity.
Qed.

(** ** Short-circuit order *)

(** C4. [lift2(f)(Left(a))(y)] is [Left(a)] whatever [f] and [y] are;
    [lift2(f)(Right(x))(Left(b))] is [Left(b)]; and [altLazy(Right(x))(thunk)]
    returns [Right(x)] and leaves the caller state as it was for every
    thunk, in particular an instrumented thunk logs no call. *)
Theorem short_circuit_order :
  forall (W E T1 T2 R T : Type),
    (forall (f : T1 -> M W (T2 -> M W R)) (a : E) (y : Either E T2),
        lift2 f (Left a) y ≡ ret (Left a)) /\
    (forall (f : T1 -> M W (T2 -> M W R)) (x : T1) (b : E),
        lift2 f (Right x) (Left b) ≡ ret (Left b)) /\
    (forall (x : T) (thunk : unit -> M W (Either E T)),
        altLazy (Right x) thunk ≡ ret (Right x)) /\
    (forall (x : T) (thunk : unit -> M W (Either E T)) (log : list unit) (w : W),
        altLazy (Right x) (logged (fun u => u) thunk) (log, w) =
        (Return (Right x), (log, w))).
Proof.
  intros. repeat split.
Qed.

(** When the first operand is a Left the thunk is called, once. *)
Lemma altLazy_Left_calls_thunk {W E T} (e : E) (thunk : unit -> M W (Either E T))
    (log : list unit) (w : W) :
  altLazy (Left e) (logged (fun u => u) thunk) (log, w) =
  (fst (thunk tt w), (log ++ [tt], snd (thunk tt w))).
Proof.
  cbn. unfold logged. cbn. destruct (thunk tt w); reflexivity.
Qed.

(** ** Functor and monad laws *)

Lemma map_compose {W E T R S} (f : T -> M W R) (g : R -> M W S) (e : Either E T) :
  (e' <- map f e ;; map g e') ≡ map (fun x => y <- f x ;; g y) e.
Proof.
  destruct e as [x | l]; cbn.
  - intros w. unfold bind, ret.
    destruct (f x w) as [[y | err] w1]; [ | reflexivity ].
    cbn. unfold bind, ret.
    destruct (g y w1) as [[z | err] w2]; reflexivity.
  - intros w. reflexivity.
Qed.

(** C5. [map(identity)(e) == e] for every [e]; mapping [f] and then [g]
    over a Right-valued [e] is mapping their composition; and
    [map(f)(Left(x)) == Left(x)] for every [f]. *)
Theorem map_functor_laws :
  forall (W E T R S : Type),
    (forall e : Either E T, map (W:=W) (fun x => ret x) e ≡ ret e) /\
    (forall (f : T -> M W R) (g : R -> M W S) (x : T),
        (e' <- map f (@Right E T x) ;; map g e') ≡
        map (fun x => y <- f x ;; g y) (@Right E T x)) /\
    (forall (f : T -> M W R) (x : E), map f (Left x) ≡ ret (Left x)).
Proof.
  intros. split; [ | split ].
  - intros [v | x] w; reflexivity.
  - intros f g x. apply map_compose.
  - intros f x w. reflexivity.
Qed.

(** C6. [chain(f)(of(x)) == f(x)] and [chain(of)(e) == e]. *)
Theorem chain_identity_laws :
  forall (W E T R : Type),
    (forall (f : T -> M W (Either E R)) (x : T),
        (e <- of_ x ;; chain f e) ≡ f x) /\
    (forall e : Either E T, chain (W:=W) of_ e ≡ ret e).
Proof.
  intros. split.
  - intros f x w. reflexivity.
  - intros [v | l] w; reflexivity.
Qed.

(** ** Collection lifters *)

(** C7. [singleFromArray] gives Right of the only element of an array of
    length 1, [Left(Empty)] for length 0 and [Left(MoreThanOne)] for a
    longer one; [firstFromArray] gives Right of the first element of a
    non-empty array and [Left(Empty)] otherwise. *)
Theorem array_lifters :
  forall (W T : Type) (undefined : T) (seq : list T),
    (List.length seq = 1 ->
       exists x, seq = [x] /\
                 singleFromArray (W:=W) undefined seq ≡ ret (Right x)) /\
    (List.length seq = 0 ->
       singleFromArray (W:=W) undefined seq ≡ ret (Left TakeSingleError_Empty)) /\
    (List.length seq > 1 ->
       singleFromArray (W:=W) undefined seq ≡ ret (Left TakeSingleError_MoreThanOne)) /\
    (seq <> [] ->
       exists x rest, seq = x :: rest /\
                      firstFromArray (W:=W) undefined seq ≡ ret (Right x)) /\
    (seq = [] ->
       firstFromArray (W:=W) undefined seq ≡ ret (Left TakeFirstError_Empty)).
Proof.
  intros W T undefined seq.
  split; [ | split; [ | split; [ | split ] ] ]; intros H.
  - destruct seq as [ | x [ | y rest]]; cbn in H; try discriminate.
    exists x. split; [ reflexivity | intros w; reflexivity ].
  - destruct seq; cbn in H; try discriminate. intros w; reflexivity.
  - destruct seq as [ | x [ | y rest]]; cbn in H; try lia. intros w; reflexivity.
  - destruct seq as [ | x rest]; [ congruence | ].
    exists x, rest. split; [ reflexivity | intros w; reflexivity ].
  - subst seq. intros w; reflexivity.
Qed.

Lemma array_lifters_witness :
  (exists x, [7] = [x] /\ singleFromArray (W:=unit) 0 [7] ≡ ret (Right x)) /\
  singleFromArray (W:=unit) 0 [] ≡ ret (Left TakeSingleError_Empty) /\
  singleFromArray (W:=unit) 0 [1; 2] ≡ ret (Left TakeSingleError_MoreThanOne) /\
  (exists x rest, [5; 6] = x :: rest /\ firstFromArray (W:=unit) 0 [5; 6] ≡ ret (Right x)) /\
  firstFromArray (W:=unit) 0 [] ≡ ret (Left TakeFirstError_Empty).
Proof.
  split; [ | split; [ | split; [ | split ] ] ].
  - apply (array_lifters unit 0 [7]). reflexivity.
  - apply (array_lifters unit 0 []). reflexivity.
  - apply (array_lifters unit 0 [1; 2]). cbn. lia.
  - apply (array_lifters unit 0 [5; 6]). discriminate.
  - apply (array_lifters unit 0 []). reflexivity.
Defined.

(** ** Unsafe extraction *)

Lemma embeds_after_prefix (prefix s : string) :
  exists before after : string, (prefix ++ s)%string = (before ++ s ++ after)%string.
Proof.
  exists prefix, "". f_equal.
  induction s as [ | c s IH]; cbn; congruence.
Qed.

(** On a Symbol payload [getRightOrFail(Left(e))] throws the [TypeError] of
    the string conversion: no [Error] is built and no message embeds a
    rendering. *)
Lemma getRightOrFail_symbol :
  getRightOrFail (W:=unit) (T:=nat) ToString (Left (Symbol "s")) tt
    = (Throw (TypeError "Cannot convert a Symbol value to a string"), tt) /\
  ~ (exists message w',
       getRightOrFail (W:=unit) (T:=nat) ToString (Left (Symbol "s")) tt
       = (Throw (Error message), w')) /\
  ~ (forall e : Payload, exists message w',
       getRightOrFail (W:=unit) (T:=nat) ToString (Left e) tt
       = (Throw (Error message), w')).
Proof.
  split; [ reflexivity | split ].
  - intros (message & w' & H). discriminate H.
  - intros H. destruct (H (Symbol "s")) as (message & w' & Hm). discriminate Hm.
Qed.

(** C8, amended.  [getRightOrFail(Right(x))] is [x], and nothing is
    rendered.  [getRightOrFail(Left(e))] never returns: when the string
    conversion of [e] yields [s] it throws an [Error] whose message is the
    fixed text followed by [s], so the rendering is embedded in the
    message; when the conversion itself throws, that error is thrown. *)
Theorem getRightOrFail_spec :
  forall (W E T : Type) (render : E -> M W string),
    (forall x : T, getRightOrFail render (@Right E T x) ≡ ret x) /\
    (forall (e : E) (w w' : W) (s : string),
        render e w = (Return s, w') ->
        getRightOrFail (T:=T) render (Left e) w
          = (Throw (Error ("Tried to get right out of a left: " ++ s)), w') /\
        exists before after : string,
          ("Tried to get right out of a left: " ++ s)%string
          = (before ++ s ++ after)%string) /\
    (forall (e : E) (w w' : W) (err : exn),
        render e w = (Throw err, w') ->
        getRightOrFail (T:=T) render (Left e) w = (Throw err, w')) /\
    (forall (e : E) (w : W),
        exists err w', getRightOrFail (T:=T) render (Left e) w = (Throw err, w')).
Proof.
  intros W E T render.
  split; [ | split; [ | split ] ].
  - intros x w. reflexivity.
  - intros e w w' s Hs. split; [ | apply embeds_after_prefix ].
    cbn. unfold bind. rewrite Hs. reflexivity.
  - intros e w w' err Hs. cbn. unfold bind. rewrite Hs. reflexivity.
  - intros e w. cbn. unfold bind, throw.
    destruct (render e w) as [[s | err] w']; eauto.
Qed.

Lemma getRightOrFail_spec_witness :
  getRightOrFail (W:=unit) (T:=nat) ToString (Left (Text "oops")) tt
    = (Throw (Error "Tried to get right out of a left: oops"), tt) /\
  getRightOrFail (W:=unit) (T:=nat) ToString (Left (Symbol "s")) tt
    = (Throw (TypeError "Cannot convert a Symbol value to a string"), tt).
Proof.
  destruct (@getRightOrFail_spec unit Payload nat ToString) as (_ & Hs & Herr & _).
  split.
  - apply (Hs (Text "oops") tt tt "oops"). reflexivity.
  - apply (Herr (Symbol "s") tt tt). reflexivity.
Defined.

(** A payload that is itself an Either is rendered by [Either.toString]. *)
Example getRightOrFail_nested :
  getRightOrFail (W:=unit) (T:=nat) (toString ToString ToString)
    (Left (Left (Text "oops"))) tt
  = (Throw (Error "Tried to get right out of a left: (left oops)"), tt).
Proof. reflexivity. Qed.

(** ** lift2 against the composition of map and apply *)

(** At [a = Right(1)], [b = Left("e")] and a function that throws when
    first applied, [lift2(f)(a)(b)] returns [Left("e")] while
    [apply(map(f)(a))(b)] throws: the two are not equal. *)
Lemma lift2_not_apply_map :
  lift2 (W:=unit) (E:=string) throwing (Right 1) (Left "e") tt = (Return (Left "e"), tt) /\
  (fa <- map (E:=string) throwing (Right 1) ;; apply fa (Left "e")) tt
    = (Throw (Error "boom"), tt) /\
  ~ (forall (f : nat -> M unit (nat -> M unit nat)) (a b : Either string nat),
        lift2 f a b ≡ (fa <- map f a ;; apply fa b)).
Proof.
  split; [ reflexivity | split; [ reflexivity | ] ].
  intros H. specialize (H throwing (Right 1) (Left "e") tt). discriminate H.
Qed.

(** The same difference seen through the caller state: [lift2] never calls
    the function, the composition calls it once. *)
Example lift2_skips_the_call :
  lift2 (E:=string) counting (Right 1) (Left "e") 0 = (Return (Left "e"), 0) /\
  (fa <- map (E:=string) counting (Right 1) ;; apply fa (Left "e")) 0
    = (Return (Left "e"), 1).
Proof. split; reflexivity. Qed.

(** C10, amended.  [lift2(f)(a)(b) == apply(map(f)(a))(b)] for all Either
    values [a] and [b] and every curried [f] whose first application
    returns normally and leaves the caller state unchanged; the condition
    is used only where [a] is a Right and [b] is a Left. *)
Theorem lift2_apply_map :
  forall (W E T1 T2 R : Type) (f : T1 -> M W (T2 -> M W R))
         (a : Either E T1) (b : Either E T2),
    (forall x, a = Right x -> isLeft b = true ->
               forall w, exists g, f x w = (Return g, w)) ->
    lift2 f a b ≡ (fa <- map f a ;; apply fa b).
Proof.
  intros W E T1 T2 R f [x | l] [y | r] Hpure w; cbn.
  - unfold bind, ret.
    destruct (f x w) as [[g | err] w1]; [ | reflexivity ].
    cbn. unfold bind, ret.
    destruct (g y w1) as [[z | err] w2]; reflexivity.
  - destruct (Hpure x eq_refl eq_refl w) as [g Hg].
    unfold bind, ret. rewrite Hg. reflexivity.
  - reflexivity.
  - reflexivity.
Qed.

Lemma lift2_apply_map_witness :
  lift2 (W:=unit) (E:=string) (fun x => ret (fun y => ret (x + y))) (Right 1) (Left "e") tt
  = (fa <- map (fun x => ret (fun y => ret (x + y))) (Right 1) ;; apply fa (Left "e")) tt.
Proof.
  apply (@lift2_apply_map unit string nat nat nat
           (fun x => ret (fun y => ret (x + y))) (Right 1) (Left "e")).
  intros x _ _ w. exists (fun y => ret (x + y)). reflexivity.
Defined.

(** ** Record lifters *)

(** C9. On the record with no fields both lifters return Right of the
    record with no fields. *)
Theorem lift_empty_record :
  forall (W E V : Type),
    liftProps (W:=W) (E:=E) (V:=V) [] ≡ ret (Right []) /\
    liftPropsCollect (W:=W) (E:=E) (V:=V) [] ≡ ret (Right []).
Proof.
  intros. split; intros w; reflexivity.
Qed.

(** *** The enumeration order *)

Section Enumeration.
Context {V : Type}.
Implicit Types (o : Obj V) (l : list (N * (string * V))).

Lemma insert_index_perm n p l :
  Permutation (List.map snd (insert_index n p l)) (p :: List.map snd l).
Proof.
  induction l as [ | [m q] l IH]; cbn.
  - apply Permutation_refl.
  - destruct (n <=? m)%N; cbn.
    + apply Permutation_refl.
    + eapply perm_trans; [ apply perm_skip, IH | apply perm_swap ].
Qed.

Lemma Object_entries_perm o : Permutation (Object_entries o) o.
Proof.
  unfold Object_entries, is_index.
  induction o as [ | p o IH]; cbn.
  - apply Permutation_refl.
  - destruct (array_index (fst p)) as [n | ]; cbn.
    + eapply perm_trans.
      * apply Permutation_app_tail, insert_index_perm.
      * cbn. apply perm_skip, IH.
    + eapply perm_trans.
      * apply Permutation_sym, Permutation_middle.
      * apply perm_skip, IH.
Qed.

Lemma Object_keys_perm o : Permutation (Object_keys o) (List.map fst o).
Proof. apply Permutation_map, Object_entries_perm. Qed.

Lemma wf_Object_entries o : wf_obj o -> wf_obj (Object_entries o).
Proof.
  unfold wf_obj. intros H.
  eapply Permutation_NoDup; [ apply Permutation_sym, Object_keys_perm | exact H ].
Qed.

(** Without array-index keys the enumeration order is the creation order. *)
Lemma indexed_no_index o :
  (forall k, In k (List.map fst o) -> array_index k = None) -> indexed o = [].
Proof.
  induction o as [ | p o IH]; cbn; intros H; [ reflexivity | ].
  rewrite (H (fst p)) by (left; reflexivity).
  apply IH. intros k Hk. apply H. right. exact Hk.
Qed.

Lemma others_no_index o :
  (forall k, In k (List.map fst o) -> array_index k = None) ->
  filter (fun p => negb (is_index (fst p))) o = o.
Proof.
  unfold is_index.
  induction o as [ | p o IH]; cbn; intros H; [ reflexivity | ].
  rewrite (H (fst p)) by (left; reflexivity). cbn.
  f_equal. apply IH. intros k Hk. apply H. right. exact Hk.
Qed.

Lemma Object_entries_no_index o :
  (forall k, In k (List.map fst o) -> array_index k = None) ->
  Object_entries o = o.
Proof.
  intros H. unfold Object_entries.
  rewrite indexed_no_index, others_no_index by exact H. reflexivity.
Qed.

Lemma insert_index_sorted n p l :
  array_index (fst p) = Some n -> sorted l -> sorted (insert_index n p l).
Proof.
  intros Hp. induction l as [ | [m q] l IH]; cbn.
  - auto.
  - intros (Hhd & Hq & Hl).
    destruct (n <=? m)%N eqn:Hnm; cbn.
    + apply N.leb_le in Hnm. auto.
    + apply N.leb_gt in Hnm. repeat split; auto.
      destruct l as [ | [m' q'] l']; cbn in *.
      * lia.
      * destruct (n <=? m')%N; cbn; lia.
Qed.

Lemma indexed_sorted o : sorted (indexed o).
Proof.
  induction o as [ | p o IH]; cbn; [ exact I | ].
  destruct (array_index (fst p)) as [n | ] eqn:Hp; [ | exact IH ].
  apply insert_index_sorted; assumption.
Qed.

Lemma insert_index_head n p l :
  le_head n l -> insert_index n p l = (n, p) :: l.
Proof.
  destruct l as [ | [m q] l]; cbn; [ reflexivity | ].
  intros H. apply N.leb_le in H. rewrite H. reflexivity.
Qed.

Lemma indexed_of_sorted l : sorted l -> indexed (List.map snd l) = l.
Proof.
  induction l as [ | [n p] l IH]; cbn; [ reflexivity | ].
  intros (Hhd & Hp & Hl). rewrite Hp, (IH Hl).
  apply insert_index_head, Hhd.
Qed.

Lemma indexed_app_others o1 o2 :
  (forall p, In p o2 -> array_index (fst p) = None) ->
  indexed (o1 ++ o2) = indexed o1.
Proof.
  intros H. induction o1 as [ | p o1 IH]; cbn.
  - induction o2 as [ | q o2 IH2]; cbn; [ reflexivity | ].
    rewrite (H q) by (left; reflexivity).
    apply IH2. intros p Hp. apply H. right. exact Hp.
  - rewrite IH. reflexivity.
Qed.

Lemma others_of_sorted l :
  sorted l -> filter (fun p => negb (is_index (fst p))) (List.map snd l) = [].
Proof.
  unfold is_index.
  induction l as [ | [n p] l IH]; cbn; [ reflexivity | ].
  intros (_ & Hp & Hl). rewrite Hp. cbn. apply IH, Hl.
Qed.

(** Enumerating the enumeration changes nothing. *)
Lemma Object_entries_idem o : Object_entries (Object_entries o) = Object_entries o.
Proof.
  unfold Object_entries at 1.
  set (others := filter (fun p => negb (is_index (fst p))) o).
  assert (Hothers : forall p, In p others -> array_index (fst p) = None).
  { intros p Hp. apply filter_In in Hp. destruct Hp as [_ Hp].
    unfold is_index in Hp. destruct (array_index (fst p)); [ discriminate | reflexivity ]. }
  unfold Object_entries. fold others.
  rewrite indexed_app_others by exact Hothers.
  rewrite indexed_of_sorted by apply indexed_sorted.
  f_equal.
  rewrite filter_app, others_of_sorted by apply indexed_sorted.
  cbn. unfold others. clear.
  induction o as [ | p o IH]; cbn; [ reflexivity | ].
  destruct (negb (is_index (fst p))) eqn:Hp; cbn; [ rewrite Hp, IH | ]; auto.
Qed.

End Enumeration.

(** *** Property reads and writes *)

Lemma get_In_key {V} (o : Obj V) (key : string) :
  In key (List.map fst o) -> exists v, get o key = Some v.
Proof.
  induction o as [ | [k x] o IH]; cbn; [ contradiction | ].
  intros H. destruct (String.eqb_spec k key) as [ | Hne].
  - eauto.
  - destruct H as [H | H]; [ contradiction | auto ].
Qed.

Lemma get_In {V} (o : Obj V) (key : string) (v : V) :
  wf_obj o -> In (key, v) o -> get o key = Some v.
Proof.
  unfold wf_obj.
  induction o as [ | [k x] o IH]; cbn; [ contradiction | ].
  intros Hnd Hin. inversion Hnd as [ | ? ? Hk Hnd']; subst.
  destruct Hin as [Heq | Hin].
  - inversion Heq; subst. rewrite String.eqb_refl. reflexivity.
  - destruct (String.eqb_spec k key) as [-> | Hne]; [ | auto ].
    exfalso. apply Hk. apply (in_map fst) in Hin. exact Hin.
Qed.

Lemma define_fresh {V} (o : Obj V) (key : string) (v : V) :
  ~ In key (List.map fst o) -> define o key v = o ++ [(key, v)].
Proof.
  induction o as [ | [k x] o IH]; cbn; intros H; [ reflexivity | ].
  destruct (String.eqb_spec k key) as [Heq | Hne].
  - exfalso. apply H. left. exact Heq.
  - f_equal. apply IH. intros Hin. apply H. right. exact Hin.
Qed.

(** Writing fresh keys, none of them [__proto__], appends them in order. *)
Lemma fold_set_fresh {V} (entries result : Obj V) :
  NoDup (List.map fst result ++ List.map fst entries) ->
  ~ In "__proto__" (List.map fst entries) ->
  fold_left set_entry entries result = result ++ entries.
Proof.
  revert result.
  induction entries as [ | [k v] entries IH]; cbn; intros result Hnd Hproto.
  - symmetry. apply app_nil_r.
  - assert (Hk : ~ In k (List.map fst result)).
    { intros Hin. apply NoDup_remove_2 in Hnd. apply Hnd.
      apply in_or_app. left. exact Hin. }
    unfold set_entry at 2, set. cbn.
    destruct (String.eqb_spec k "__proto__") as [-> | _].
    + exfalso. apply Hproto. left. reflexivity.
    + rewrite define_fresh by exact Hk.
      rewrite IH.
      * rewrite <- app_assoc. reflexivity.
      * rewrite List.map_app, <- app_assoc. exact Hnd.
      * intros Hin. apply Hproto. right. exact Hin.
Qed.

(** *** What the two loops compute *)

Section Fields.
Context {E V : Type}.
Implicit Types (fields : list (string * Either E V)).

Lemma all_right_wrap fields : all_right fields = true -> fields = wrap (unwrapped fields).
Proof.
  induction fields as [ | [k [v | e]] rest IH]; cbn; intros H.
  - reflexivity.
  - f_equal. apply IH, H.
  - discriminate.
Qed.

Lemma unwrapped_wrap (u : Obj V) : unwrapped (wrap (E:=E) u) = u.
Proof. unfold wrap. induction u as [ | [k v] u IH]; cbn; congruence. Qed.

Lemma first_left_wrap (u : Obj V) : first_left (wrap (E:=E) u) = None.
Proof. unfold wrap. induction u as [ | [k v] u IH]; cbn; congruence. Qed.

Lemma lefts_wrap (u : Obj V) : lefts (wrap (E:=E) u) = [].
Proof. unfold wrap. induction u as [ | [k v] u IH]; cbn; congruence. Qed.

Lemma keys_wrap (u : Obj V) : List.map fst (wrap (E:=E) u) = List.map fst u.
Proof. unfold wrap. rewrite List.map_map. reflexivity. Qed.

Lemma insert_index_wrap n (p : string * V) l :
  List.map (fun q => (fst q, (fst (snd q), @Right E V (snd (snd q))))) (insert_index n p l)
  = insert_index n (fst p, Right (snd p))
      (List.map (fun q => (fst q, (fst (snd q), Right (snd (snd q))))) l).
Proof.
  induction l as [ | [m q] l IH]; cbn; [ reflexivity | ].
  destruct (n <=? m)%N; cbn; [ reflexivity | ]. rewrite IH. reflexivity.
Qed.

Lemma indexed_wrap (u : Obj V) :
  indexed (wrap (E:=E) u)
  = List.map (fun q => (fst q, (fst (snd q), Right (snd (snd q))))) (indexed u).
Proof.
  induction u as [ | p u IH]; cbn; [ reflexivity | ].
  destruct (array_index (fst p)) as [n | ]; [ | exact IH ].
  fold (wrap (E:=E) u). rewrite IH. symmetry. apply insert_index_wrap.
Qed.

(** Wrapping every field keeps the enumeration order. *)
Lemma Object_entries_wrap (u : Obj V) :
  Object_entries (wrap (E:=E) u) = wrap (E:=E) (Object_entries u).
Proof.
  unfold Object_entries. unfold wrap at 3.
  rewrite List.map_app, indexed_wrap, !List.map_map. cbn. f_equal.
  unfold wrap. clear.
  induction u as [ | p u IH]; cbn; [ reflexivity | ].
  destruct (negb (is_index (fst p))); cbn; rewrite IH; reflexivity.
Qed.

Lemma all_right_perm fields fields' :
  Permutation fields fields' -> all_right fields = true -> all_right fields' = true.
Proof.
  unfold all_right. intros Hp H.
  apply forallb_forall. intros p Hin.
  rewrite forallb_forall in H. apply H.
  eapply Permutation_in; [ apply Permutation_sym, Hp | exact Hin ].
Qed.

Lemma lefts_nil_all_right fields : lefts fields = [] -> all_right fields = true.
Proof.
  induction fields as [ | [k [v | e]] rest IH]; cbn; intros H;
    [ reflexivity | apply IH, H | discriminate ].
Qed.

Lemma first_left_None_all_right fields : first_left fields = None -> all_right fields = true.
Proof.
  induction fields as [ | [k [v | e]] rest IH]; cbn; intros H;
    [ reflexivity | apply IH, H | discriminate ].
Qed.

(** Every field of a record is a Right exactly when the enumeration meets
    no Left. *)
Lemma all_right_iff (o : Obj (Either E V)) :
  (all_right o = true <-> first_left (Object_entries o) = None) /\
  (all_right o = true <-> lefts (Object_entries o) = []).
Proof.
  assert (Hto : all_right o = true ->
                Object_entries o = wrap (unwrapped (Object_entries o))).
  { intros H. apply all_right_wrap.
    eapply all_right_perm; [ apply Permutation_sym, Object_entries_perm | exact H ]. }
  assert (Hfrom : all_right (Object_entries o) = true -> all_right o = true).
  { apply all_right_perm, Object_entries_perm. }
  split; split; intros H.
  - rewrite (Hto H). apply first_left_wrap.
  - apply Hfrom, first_left_None_all_right, H.
  - rewrite (Hto H). apply lefts_wrap.
  - apply Hfrom, lefts_nil_all_right, H.
Qed.

End Fields.

Section Loops.
Context {W E V : Type}.
Implicit Types (o fields : Obj (Either E V)) (result : Obj V).

(** [liftProps]'s loop over the keys of [fields], each of which reads
    back its field from [o]. *)
Lemma liftProps_loop_fields o fields result :
  (forall k e, In (k, e) fields -> get o k = Some e) ->
  liftProps_loop (W:=W) o (List.map fst fields) result ≡
  match first_left fields with
  | Some e => ret (Left e)
  | None => ret (Right (fold_left set_entry (unwrapped fields) result))
  end.
Proof.
  revert result.
  induction fields as [ | [k [v | e]] rest IH]; intros result Hget w; cbn.
  - reflexivity.
  - rewrite (Hget k (Right v)) by (left; reflexivity).
    apply IH. intros k' e' Hin. apply Hget. right. exact Hin.
  - rewrite (Hget k (Left e)) by (left; reflexivity). reflexivity.
Qed.

Lemma liftPropsCollect_loop_failed o fields result (errors : list E) :
  (forall k e, In (k, e) fields -> get o k = Some e) ->
  errors <> [] ->
  liftPropsCollect_loop (W:=W) o (List.map fst fields) result errors ≡
  ret (Left (errors ++ lefts fields)).
Proof.
  revert errors.
  induction fields as [ | [k [v | e]] rest IH]; intros errors Hget Herr w; cbn.
  - rewrite app_nil_r. destruct errors; [ contradiction | reflexivity ].
  - rewrite (Hget k (Right v)) by (left; reflexivity).
    destruct errors as [ | e0 errors]; [ contradiction | ]. cbn.
    apply (IH (e0 :: errors)); [ | discriminate ].
    intros k' e' Hin. apply Hget. right. exact Hin.
  - rewrite (Hget k (Left e)) by (left; reflexivity).
    rewrite (IH (errors ++ [e])).
    + rewrite <- app_assoc. reflexivity.
    + intros k' e' Hin. apply Hget. right. exact Hin.
    + destruct errors; discriminate.
Qed.

Lemma liftPropsCollect_loop_fields o fields result :
  (forall k e, In (k, e) fields -> get o k = Some e) ->
  liftPropsCollect_loop (W:=W) o (List.map fst fields) result [] ≡
  match lefts fields with
  | [] => ret (Right (fold_left set_entry (unwrapped fields) result))
  | errors => ret (Left errors)
  end.
Proof.
  revert result.
  induction fields as [ | [k [v | e]] rest IH]; intros result Hget w; cbn.
  - reflexivity.
  - rewrite (Hget k (Right v)) by (left; reflexivity). cbn.
    apply IH. intros k' e' Hin. apply Hget. right. exact Hin.
  - rewrite (Hget k (Left e)) by (left; reflexivity). cbn.
    apply liftPropsCollect_loop_failed; [ | discriminate ].
    intros k' e' Hin. apply Hget. right. exact Hin.
Qed.

Lemma get_Object_entries o k e :
  wf_obj o -> In (k, e) (Object_entries o) -> get o k = Some e.
Proof.
  intros Hwf Hin. apply get_In; [ exact Hwf | ].
  eapply Permutation_in; [ apply Object_entries_perm | exact Hin ].
Qed.

Lemma liftProps_fields o :
  wf_obj o ->
  liftProps (W:=W) o ≡
  match first_left (Object_entries o) with
  | Some e => ret (Left e)
  | None => ret (Right (fold_left set_entry (unwrapped (Object_entries o)) []))
  end.
Proof.
  intros Hwf. apply liftProps_loop_fields.
  intros k e. apply get_Object_entries, Hwf.
Qed.

Lemma liftPropsCollect_fields o :
  wf_obj o ->
  liftPropsCollect (W:=W) o ≡
  match lefts (Object_entries o) with
  | [] => ret (Right (fold_left set_entry (unwrapped (Object_entries o)) []))
  | errors => ret (Left errors)
  end.
Proof.
  intros Hwf. apply liftPropsCollect_loop_fields.
  intros k e. apply get_Object_entries, Hwf.
Qed.

(** The object the loops fill when every field is a Right and no field
    is named [__proto__]: the unwrapped fields in enumeration order, a
    record that shows the same entries as the unwrapped input. *)
Lemma filled_record o :
  wf_obj o ->
  all_right o = true ->
  ~ In "__proto__" (List.map fst o) ->
  fold_left set_entry (unwrapped (Object_entries o)) []
    = Object_entries (unwrapped o) /\
  same_record (Object_entries (unwrapped o)) (unwrapped o).
Proof.
  intros Hwf Hall Hproto. split; [ | apply Object_entries_idem ].
  rewrite (all_right_wrap o Hall) at 1.
  rewrite Object_entries_wrap, unwrapped_wrap.
  assert (Hkeys : Permutation (List.map fst (Object_entries (unwrapped o))) (List.map fst o)).
  { eapply perm_trans; [ apply Object_keys_perm | ].
    rewrite (all_right_wrap o Hall) at 2. rewrite keys_wrap. apply Permutation_refl. }
  rewrite fold_set_fresh; [ reflexivity | | ].
  - cbn. eapply Permutation_NoDup; [ apply Permutation_sym, Hkeys | exact Hwf ].
  - intros Hin. apply Hproto. eapply Permutation_in; [ exact Hkeys | exact Hin ].
Qed.

End Loops.

(** On [{b: Left("x"), 1: Left("y")}] the first Left in declaration order
    is [Left("x")] and the Left payloads in declaration order are
    [["x","y"]], but [liftProps] returns [Left("y")] and
    [liftPropsCollect] returns [Left(["y","x"])]: [Object.keys] lists the
    key [1] before the key [b]. *)
Lemma lifters_not_in_declaration_order :
  wf_obj index_key_fields /\
  first_left index_key_fields = Some "x" /\
  lefts index_key_fields = ["x"; "y"] /\
  Object_keys index_key_fields = ["1"; "b"] /\
  liftProps (W:=unit) index_key_fields tt = (Return (Left "y"), tt) /\
  liftPropsCollect (W:=unit) index_key_fields tt = (Return (Left ["y"; "x"]), tt) /\
  ~ (forall o : Obj (Either string nat), wf_obj o ->
       forall e, first_left o = Some e -> liftProps (W:=unit) o ≡ ret (Left e)) /\
  ~ (forall o : Obj (Either string nat), wf_obj o ->
       lefts o <> [] -> liftPropsCollect (W:=unit) o ≡ ret (Left (lefts o))).
Proof.
  assert (Hwf : wf_obj index_key_fields).
  { unfold wf_obj. cbn. repeat constructor; cbn; intuition discriminate. }
  repeat (split; [ first [ exact Hwf | reflexivity ] | ]).
  split.
  - intros H. specialize (H index_key_fields Hwf "x" eq_refl tt). discriminate H.
  - intros H.
    assert (Hne : lefts index_key_fields <> []) by discriminate.
    specialize (H index_key_fields Hwf Hne tt). discriminate H.
Qed.

(** A field named [__proto__] whose payload is a number is read, but the
    payload is not stored as a field of the result. *)
Example liftProps_proto_field :
  liftProps (W:=unit) (E:=string) [("a", Right 1); ("__proto__", Right 2)] tt
  = (Return (Right [("a", 1)]), tt).
Proof. reflexivity. Qed.

(** C3, amended.  For every record of Either-valued fields with no field
    named [__proto__], taken in the order in which [Object.keys] lists
    the fields (array-index keys in ascending numeric order, then the
    other keys in declaration order; declaration order itself when no key
    is an array index): [liftProps] returns the first Left,
    [liftPropsCollect] returns Left of the sequence of all Left payloads
    when there is one; and when every field is a Right both return Right
    of a record showing the same entries as the unwrapped input.  On
    [{a: Left("x"), b: Left("y"), c: Right(1)}] they return [Left("x")] and
    [Left(["x","y"])]. *)
Theorem record_lifters :
  forall (W E V : Type),
    (forall o : Obj (Either E V),
       wf_obj o -> ~ In "__proto__" (List.map fst o) ->
       (forall e, first_left (Object_entries o) = Some e ->
          liftProps (W:=W) o ≡ ret (Left e)) /\
       (lefts (Object_entries o) <> [] ->
          liftPropsCollect (W:=W) o ≡ ret (Left (lefts (Object_entries o)))) /\
       (all_right o = true ->
          o = wrap (unwrapped o) /\
          exists r, same_record r (unwrapped o) /\
                    liftProps (W:=W) o ≡ ret (Right r) /\
                    liftPropsCollect (W:=W) o ≡ ret (Right r)) /\
       (all_right o = true <-> first_left (Object_entries o) = None) /\
       (all_right o = true <-> lefts (Object_entries o) = []) /\
       ((forall k, In k (List.map fst o) -> array_index k = None) ->
          Object_entries o = o)) /\
    liftProps (W:=W) example_fields ≡ ret (Left "x") /\
    liftPropsCollect (W:=W) example_fields ≡ ret (Left ["x"; "y"]).
Proof.
  intros W E V. split; [ | split; intros w; reflexivity ].
  intros o Hwf Hproto. split; [ | split; [ | split; [ | split; [ | split ] ] ] ].
  - intros e He w. rewrite (@liftProps_fields W E V o Hwf w), He. reflexivity.
  - intros Hne w. rewrite (@liftPropsCollect_fields W E V o Hwf w).
    destruct (lefts (Object_entries o)); [ contradiction | reflexivity ].
  - intros Hall.
    split; [ apply all_right_wrap, Hall | ].
    destruct (filled_record (o:=o) Hwf Hall Hproto) as [Hfill Hsame].
    assert (Hall' : all_right (Object_entries o) = true).
    { eapply all_right_perm; [ apply Permutation_sym, Object_entries_perm | exact Hall ]. }
    pose proof (all_right_wrap _ Hall') as Hw.
    exists (Object_entries (unwrapped o)). split; [ exact Hsame | split ]; intros w.
    + rewrite (@liftProps_fields W E V o Hwf w), Hw, first_left_wrap, <- Hw, Hfill. reflexivity.
    + rewrite (@liftPropsCollect_fields W E V o Hwf w), Hw, lefts_wrap, <- Hw, Hfill. reflexivity.
  - apply all_right_iff.
  - apply all_right_iff.
  - apply Object_entries_no_index.
Qed.

Lemma record_lifters_witness :
  wf_obj example_fields /\
  liftProps (W:=unit) example_fields ≡ ret (Left "x") /\
  liftPropsCollect (W:=unit) example_fields ≡ ret (Left ["x"; "y"]) /\
  Object_entries example_fields = example_fields /\
  wf_obj plain_fields /\
  exists r, same_record r (unwrapped plain_fields) /\
            liftProps (W:=unit) plain_fields ≡ ret (Right r) /\
            liftPropsCollect (W:=unit) plain_fields ≡ ret (Right r).
Proof.
  assert (Hwf : wf_obj example_fields).
  { unfold wf_obj. cbn. repeat constructor; cbn; intuition discriminate. }
  assert (Hwf' : wf_obj plain_fields).
  { unfold wf_obj. cbn. repeat constructor; cbn; intuition discriminate. }
  assert (Hproto : ~ In "__proto__" (List.map fst example_fields)).
  { cbn. intuition discriminate. }
  assert (Hproto' : ~ In "__proto__" (List.map fst plain_fields)).
  { cbn. intuition discriminate. }
  destruct (proj1 (record_lifters unit string nat) example_fields Hwf Hproto)
    as (Hfirst & Hall & _ & _ & _ & Horder).
  destruct (proj1 (record_lifters unit string nat) plain_fields Hwf' Hproto')
    as (_ & _ & Hright & _).
  split; [ exact Hwf | ].
  split; [ apply Hfirst; reflexivity | ].
  split; [ apply Hall; discriminate | ].
  split.
  { apply Horder. cbn. intros k [<- | [<- | [<- | []]]]; reflexivity. }
  split; [ exact Hwf' | ].
  apply Hright. reflexivity.
Defined.

(** ** No operation but the two OrFail ones throws *)

Section Returns.
Context {W : Type}.

Lemma returns_at_ret {A} (a : A) (w : W) : returns_at (ret a) w.
Proof. exists a, w. reflexivity. Qed.

Lemma returns_at_wrap {A B} (m : M W A) (g : A -> B) (w : W) :
  returns_at m w -> returns_at (y <- m ;; ret (g y)) w.
Proof.
  intros (a & w1 & Hm). exists (g a), w1.
  unfold bind, ret. rewrite Hm. reflexivity.
Qed.

Lemma liftProps_loop_returns {E V} (o : Obj (Either E V)) keys result :
  (forall k, In k keys -> In k (List.map fst o)) ->
  returns (liftProps_loop (W:=W) o keys result).
Proof.
  revert result. induction keys as [ | key rest IH]; intros result Hin; cbn.
  - apply returns_ret.
  - destruct (get_In_key o key (Hin key (or_introl eq_refl))) as [[v | e] ->].
    + apply IH. intros k Hk. apply Hin. right. exact Hk.
    + apply returns_ret.
Qed.

Lemma liftPropsCollect_loop_returns {E V} (o : Obj (Either E V)) keys result
    (errors : list E) :
  (forall k, In k keys -> In k (List.map fst o)) ->
  returns (liftPropsCollect_loop (W:=W) o keys result errors).
Proof.
  revert result errors.
  induction keys as [ | key rest IH]; intros result errors Hin; cbn.
  - destruct (List.length errors =? 0)%nat; apply returns_ret.
  - assert (Hrest : forall k, In k rest -> In k (List.map fst o))
      by (intros k Hk; apply Hin; right; exact Hk).
    destruct (get_In_key o key (Hin key (or_introl eq_refl))) as [[v | e] ->].
    + destruct (List.length errors =? 0)%nat; apply IH, Hrest.
    + apply IH, Hrest.
Qed.

Lemma Object_keys_In {V} (o : Obj V) k :
  In k (Object_keys o) -> In k (List.map fst o).
Proof. apply Permutation_in, Object_keys_perm. Qed.

End Returns.

(** An error that leaves [caseOf] is one that the handler it ran threw;
    [caseOf] itself raises none. *)
Lemma caseOf_throws_only_handlers {W E T R} (actions : Actions W E T R)
    (input : Either E T) (w w' : W) (x : exn) :
  caseOf actions input w = (Throw x, w') ->
  (exists v, input = Right v /\ right actions v w = (Throw x, w')) \/
  (exists e, input = Left e /\ left actions e w = (Throw x, w')).
Proof.
  destruct input as [v | e]; cbn; intros H; [ left | right ]; eauto.
Qed.

(** Likewise an error that leaves [map] was thrown by the selector. *)
Lemma map_throws_only_selector {W E T R} (selector : T -> M W R)
    (input : Either E T) (w w' : W) (x : exn) :
  map selector input w = (Throw x, w') ->
  exists v, input = Right v /\ selector v w = (Throw x, w').
Proof.
  destruct input as [v | e]; cbn; unfold bind, ret.
  - destruct (selector v w) as [[r | err] w1] eqn:Hs; intros H.
    + discriminate H.
    + inversion H; subst. exists v. split; [ reflexivity | exact Hs ].
  - discriminate.
Qed.

(** [map] throws what its selector throws, and [Either.toString] throws
    the [TypeError] of the string conversion on a Symbol payload: not
    every operation outside the two OrFail ones returns normally on every
    input. *)
Lemma operations_can_throw :
  map (W:=unit) (E:=string) throwing (Right 1) tt = (Throw (Error "boom"), tt) /\
  toString (W:=unit) (E:=Payload) ToString ToString (Right (Symbol "s")) tt
    = (Throw (TypeError "Cannot convert a Symbol value to a string"), tt) /\
  ~ (forall (f : nat -> M unit (nat -> M unit nat)) (e : Either string nat),
       returns_at (map f e) tt) /\
  ~ (forall e : Either Payload Payload, returns_at (toString ToString ToString e) tt).
Proof.
  split; [ reflexivity | split; [ reflexivity | split ] ].
  - intros H. destruct (H throwing (Right 1)) as (a & w' & Ha). discriminate Ha.
  - intros H. destruct (H (Right (Symbol "s"))) as (a & w' & Ha). discriminate Ha.
Qed.

(** C1, amended.  Every operation other than [getRightOrFail] and
    [getLeftOrFail] returns normally, on every Either and every array and
    from every caller state, whenever each call that it makes to a
    function of the caller (a handler, selector or thunk, the curried
    function of [lift2] and [lift3], the string conversion of the payload
    in [Either.toString]) returns normally; the operations that take no
    function always do.  For [liftProps] and [liftPropsCollect] this is
    stated on records with no field named [__proto__]. *)
Theorem no_throw_without_OrFail :
  forall (W E E2 T T1 T2 T3 R V : Type) (w : W),
    (forall (actions : Actions W E T R) (e : Either E T),
        (forall v, e = Right v -> returns_at (right actions v) w) ->
        (forall x, e = Left x -> returns_at (left actions x) w) ->
        returns_at (caseOf actions e) w) /\
    (forall (selector : E -> M W E2) (e : Either E T),
        (forall x, e = Left x -> returns_at (selector x) w) ->
        returns_at (mapLeft selector e) w) /\
    (forall e : Either E T, returns_at (toArray e) w) /\
    (forall (undefined : T) seq, returns_at (singleFromArray undefined seq) w) /\
    (forall (undefined : T) seq, returns_at (firstFromArray undefined seq) w) /\
    (forall (d : T) (e : Either E T), returns_at (defaultTo d e) w) /\
    (forall (selector : T -> M W R) (e : Either E T),
        (forall v, e = Right v -> returns_at (selector v) w) ->
        returns_at (map selector e) w) /\
    (forall (func : Either E (T -> M W R)) (value : T),
        (forall f, func = Right f -> returns_at (f value) w) ->
        returns_at (flap func value) w) /\
    (forall (leftSelector : E -> M W E2) (rightSelector : T -> M W R) (e : Either E T),
        (forall x, e = Left x -> returns_at (leftSelector x) w) ->
        (forall v, e = Right v -> returns_at (rightSelector v) w) ->
        returns_at (bimap leftSelector rightSelector e) w) /\
    (forall (selector : T -> M W (Either E R)) (e : Either E T),
        (forall v, e = Right v -> returns_at (selector v) w) ->
        returns_at (chain selector e) w) /\
    (forall a b : Either E T, returns_at (alt a b) w) /\
    (forall (a : Either E T) (b : unit -> M W (Either E T)),
        (isLeft a = true -> returns_at (b tt) w) ->
        returns_at (altLazy a b) w) /\
    (forall (selector : Either E T -> M W R) (e : Either E T),
        (isRight e = true -> returns_at (selector e) w) ->
        returns_at (extend selector e) w) /\
    (forall (func : Either E (T -> M W R)) (value : Either E T),
        (forall f v, func = Right f -> value = Right v -> returns_at (f v) w) ->
        returns_at (apply func value) w) /\
    (forall (func : T1 -> M W (T2 -> M W R)) (t1 : Either E T1) (t2 : Either E T2),
        (forall v1 v2, t1 = Right v1 -> t2 = Right v2 ->
           exists g w1, func v1 w = (Return g, w1) /\ returns_at (g v2) w1) ->
        returns_at (lift2 func t1 t2) w) /\
    (forall (func : T1 -> M W (T2 -> M W (T3 -> M W R)))
            (t1 : Either E T1) (t2 : Either E T2) (t3 : Either E T3),
        (forall v1 v2 v3, t1 = Right v1 -> t2 = Right v2 -> t3 = Right v3 ->
           exists g w1 h w2, func v1 w = (Return g, w1) /\ g v2 w1 = (Return h, w2) /\
                             returns_at (h v3) w2) ->
        returns_at (lift3 func t1 t2 t3) w) /\
    (forall (first : Either E T1) (second : Either E T2),
        returns_at (applyFirst first second) w) /\
    (forall (first : Either E T1) (second : Either E T2),
        returns_at (applySecond first second) w) /\
    (forall o : Obj (Either E V),
        ~ In "__proto__" (List.map fst o) -> returns_at (liftProps o) w) /\
    (forall o : Obj (Either E V),
        ~ In "__proto__" (List.map fst o) -> returns_at (liftPropsCollect o) w) /\
    (forall value : T, returns_at (of_ (E:=E) value) w) /\
    (forall (renderE : E -> M W string) (renderT : T -> M W string) (e : Either E T),
        (forall v, e = Right v -> returns_at (renderT v) w) ->
        (forall x, e = Left x -> returns_at (renderE x) w) ->
        returns_at (toString renderE renderT e) w).
Proof.
  intros. repeat apply conj.
  - intros actions [v | x] Hr Hl; cbn; [ apply (Hr v eq_refl) | apply (Hl x eq_refl) ].
  - intros selector [v | x] Hs; cbn.
    + apply returns_at_ret.
    + apply returns_at_wrap, (Hs x eq_refl).
  - intros [v | x]; apply returns_at_ret.
  - intros undefined seq. unfold singleFromArray.
    destruct (List.length seq =? 0)%nat; [ apply returns_at_ret | ].
    destruct (1 <? List.length seq)%nat; apply returns_at_ret.
  - intros undefined seq. unfold firstFromArray.
    destruct (0 <? List.length seq)%nat; apply returns_at_ret.
  - intros d [v | x]; apply returns_at_ret.
  - intros selector [v | x] Hs; cbn.
    + apply returns_at_wrap, (Hs v eq_refl).
    + apply returns_at_ret.
  - intros [f | x] value Hf; cbn.
    + apply returns_at_wrap, (Hf f eq_refl).
    + apply returns_at_ret.
  - intros leftSelector rightSelector [v | x] Hl Hr; cbn.
    + apply returns_at_wrap, (Hr v eq_refl).
    + apply returns_at_wrap, (Hl x eq_refl).
  - intros selector [v | x] Hs; cbn.
    + apply (Hs v eq_refl).
    + apply returns_at_ret.
  - intros [v | x] b; apply returns_at_ret.
  - intros [v | x] b Hb; cbn.
    + apply returns_at_ret.
    + apply Hb. reflexivity.
  - intros selector [v | x] Hs; cbn.
    + apply returns_at_wrap, Hs. reflexivity.
    + apply returns_at_ret.
  - intros [f | x] [v | y] Hf; cbn; try apply returns_at_ret.
    apply returns_at_wrap, (Hf f v eq_refl eq_refl).
  - intros func [v1 | e1] [v2 | e2] Hf; cbn; try apply returns_at_ret.
    destruct (Hf v1 v2 eq_refl eq_refl) as (g & w1 & Hg & (r & w2 & Hr)).
    exists (Right r), w2. unfold bind, ret. rewrite Hg, Hr. reflexivity.
  - intros func [v1 | e1] [v2 | e2] [v3 | e3] Hf; cbn; try apply returns_at_ret.
    destruct (Hf v1 v2 v3 eq_refl eq_refl eq_refl)
      as (g & w1 & h & w2 & Hg & Hh & (r & w3 & Hr)).
    exists (Right r), w3. unfold bind, ret. rewrite Hg, Hh, Hr. reflexivity.
  - intros [v1 | e1] [v2 | e2]; apply returns_at_ret.
  - intros [v1 | e1] [v2 | e2]; apply returns_at_ret.
  - intros o _. apply liftProps_loop_returns. intros k. apply Object_keys_In.
  - intros o _. apply liftPropsCollect_loop_returns. intros k. apply Object_keys_In.
  - intros value. apply returns_at_ret.
  - intros renderE renderT [v | x] HT HE; cbn.
    + apply returns_at_wrap, (HT v eq_refl).
    + apply returns_at_wrap, (HE x eq_refl).
Qed.

Lemma no_throw_without_OrFail_witness :
  returns_at
    (caseOf {| right := fun n : nat => ret (n + 1); left := fun _ : string => ret 0 |}
            (Left "e")) tt /\
  returns_at (map (E:=string) (fun n => ret (n + 1)) (Right 3)) tt /\
  returns_at (map (E:=string) throwing (Left "e")) tt /\
  returns_at (altLazy (E:=string) (T:=nat) (Right 1) (fun _ => throw (Error "boom"))) tt /\
  returns_at (lift2 (E:=string) throwing (Right 1) (Left "e")) tt /\
  returns_at
    (lift2 (E:=string) (fun x => ret (fun y => ret (x + y))) (Right 1) (Right 2)) tt /\
  returns_at (liftProps index_key_fields) tt /\
  returns_at (toString ToString ToString (@Left Payload Payload (Text "oops"))) tt.
Proof.
  pose proof (no_throw_without_OrFail string string nat nat nat nat
                (nat -> M unit nat) nat tt) as Hmap.
  do 6 (destruct Hmap as [_ Hmap]). destruct Hmap as [Hmap _].
  pose proof (no_throw_without_OrFail string string nat nat nat nat nat nat tt) as Hall.
  destruct Hall as [HcaseOf Hall].
  do 5 (destruct Hall as [_ Hall]). destruct Hall as [Hmap' Hall].
  do 4 (destruct Hall as [_ Hall]). destruct Hall as [HaltLazy Hall].
  do 2 (destruct Hall as [_ Hall]). destruct Hall as [Hlift2 Hall].
  do 3 (destruct Hall as [_ Hall]). destruct Hall as [HliftProps _].
  pose proof (no_throw_without_OrFail Payload Payload Payload nat nat nat nat nat tt)
    as HtoString.
  do 21 (destruct HtoString as [_ HtoString]).
  repeat apply conj.
  - apply HcaseOf; intros x Hx; [ discriminate Hx | apply returns_at_ret ].
  - apply Hmap'. intros v _. apply returns_at_ret.
  - apply Hmap. intros v Hv. discriminate Hv.
  - apply HaltLazy. intros H. discriminate H.
  - apply Hlift2. intros v1 v2 _ H. discriminate H.
  - apply Hlift2. intros v1 v2 _ _. exists (fun y => ret (v1 + y)), tt.
    split; [ reflexivity | apply returns_at_ret ].
  - apply HliftProps. cbn. intuition discriminate.
  - apply HtoString; intros x Hx; [ discriminate Hx | ].
    inversion Hx; subst. apply returns_at_ret.
Defined.

(** X21. [getLeftOrFail(Left(e))] is [e], and nothing is rendered.
    [getLeftOrFail(Right(t))] never returns: when the string conversion
    of [t] yields [s] it throws an [Error] whose message is the fixed text
    followed by [s]; when the conversion itself throws, that error is
    thrown. *)
Theorem getLeftOrFail_spec :
  forall (W E T : Type) (render : T -> M W string),
    (forall e : E, getLeftOrFail render (@Left E T e) ≡ ret e) /\
    (forall (t : T) (w w' : W) (s : string),
        render t w = (Return s, w') ->
        getLeftOrFail (E:=E) render (Right t) w
          = (Throw (Error ("Tried to get left out of a right: " ++ s)), w')) /\
    (forall (t : T) (w w' : W) (err : exn),
        render t w = (Throw err, w') ->
        getLeftOrFail (E:=E) render (Right t) w = (Throw err, w')) /\
    (forall (t : T) (w : W),
        exists err w', getLeftOrFail (E:=E) render (Right t) w = (Throw err, w')).
Proof.
  intros W E T render.
  split; [ | split; [ | split ] ].
  - intros e w. reflexivity.
  - intros t w w' s Hs. cbn. unfold bind. rewrite Hs. reflexivity.
  - intros t w w' err Hs. cbn. unfold bind. rewrite Hs. reflexivity.
  - intros t w. cbn. unfold bind, throw.
    destruct (render t w) as [[s | err] w']; eauto.
Qed.

Lemma getLeftOrFail_spec_witness :
  getLeftOrFail (W:=unit) (E:=nat) ToString (Right (Text "fine")) tt
    = (Throw (Error "Tried to get left out of a right: fine"), tt) /\
  getLeftOrFail (W:=unit) (E:=nat) ToString (Right (Symbol "s")) tt
    = (Throw (TypeError "Cannot convert a Symbol value to a string"), tt).
Proof.
  destruct (@getLeftOrFail_spec unit nat Payload ToString) as (_ & Hs & Herr & _).
  split.
  - apply (Hs (Text "fine") tt tt "fine"). reflexivity.
  - apply (Herr (Symbol "s") tt tt). reflexivity.
Defined.

(** A computation that throws does not return normally. *)
Lemma throw_not_returns {W A} (e : exn) (w : W) : ~ returns (@throw W A e).
Proof. intros H. destruct (H w) as (a & w' & Ha). discriminate Ha. Qed.

(** ** Further properties of the combinators *)

(** [toArray(Right(x)) == [x]] and [toArray(Left(x)) == []]. *)
Theorem toArray_round_trip :
  forall (W E T : Type),
    (forall x : T, toArray (W:=W) (@Right E T x) ≡ ret [x]) /\
    (forall x : E, toArray (W:=W) (@Left E T x) ≡ ret []).
Proof. intros. split; intros x w; reflexivity. Qed.

(** [defaultTo(d)(Right(x)) == x] and [defaultTo(d)(Left(e)) == d]. *)
Theorem defaultTo_spec :
  forall (W E T : Type) (d : T),
    (forall x : T, defaultTo (W:=W) d (@Right E T x) ≡ ret x) /\
    (forall e : E, defaultTo (W:=W) d (@Left E T e) ≡ ret d).
Proof. intros. split; intros x w; reflexivity. Qed.

(** [alt] returns its first argument when that is a Right and its second
    argument otherwise. *)
Theorem alt_first_success :
  forall (W E T : Type) (b : Either E T),
    (forall x : T, alt (W:=W) (Right x) b ≡ ret (Right x)) /\
    (forall e : E, alt (W:=W) (Left e) b ≡ ret b).
Proof. intros. split; intros x w; reflexivity. Qed.

(** [applyFirst] and [applySecond] return the first operand's Left if it
    is one, else the second operand's Left if it is one, else the first
    and the second operand respectively. *)
Theorem applyFirst_applySecond_spec :
  forall (W E T1 T2 : Type),
    (forall (e1 : E) (second : Either E T2),
        applyFirst (W:=W) (@Left E T1 e1) second ≡ ret (Left e1) /\
        applySecond (W:=W) (@Left E T1 e1) second ≡ ret (Left e1)) /\
    (forall (v1 : T1) (e2 : E),
        applyFirst (W:=W) (Right v1) (@Left E T2 e2) ≡ ret (Left e2) /\
        applySecond (W:=W) (@Right E T1 v1) (@Left E T2 e2) ≡ ret (Left e2)) /\
    (forall (v1 : T1) (v2 : T2),
        applyFirst (W:=W) (E:=E) (Right v1) (Right v2) ≡ ret (Right v1) /\
        applySecond (W:=W) (E:=E) (Right v1) (Right v2) ≡ ret (Right v2)).
Proof.
  intros. split; [ | split ].
  - intros e1 [v2 | e2]; split; intros w; reflexivity.
  - intros v1 e2; split; intros w; reflexivity.
  - intros v1 v2; split; intros w; reflexivity.
Qed.

(** [lift3] reports the first Left among its operands, left to right,
    without calling the function; on three Rights it applies the function
    to the three payloads in turn. *)
Theorem lift3_short_circuit :
  forall (W E T1 T2 T3 R : Type) (func : T1 -> M W (T2 -> M W (T3 -> M W R))),
    (forall (e1 : E) (t2 : Either E T2) (t3 : Either E T3),
        lift3 func (Left e1) t2 t3 ≡ ret (Left e1)) /\
    (forall (v1 : T1) (e2 : E) (t3 : Either E T3),
        lift3 func (Right v1) (Left e2) t3 ≡ ret (Left e2)) /\
    (forall (v1 : T1) (v2 : T2) (e3 : E),
        lift3 func (Right v1) (Right v2) (Left e3) ≡ ret (Left e3)) /\
    (forall (v1 : T1) (v2 : T2) (v3 : T3),
        lift3 (E:=E) func (Right v1) (Right v2) (Right v3) ≡
        (g <- func v1 ;; h <- g v2 ;; r <- h v3 ;; ret (Right r))).
Proof.
  intros. split; [ | split; [ | split ] ]; intros; intros w; reflexivity.
Qed.

(** ** How the combinators compose *)

(** X1. [chain] is associative: chaining [f] and then [g] is chaining the
    function that runs [f] and chains [g] on its result. *)
Theorem chain_assoc :
  forall (W E T R S : Type) (f : T -> M W (Either E R)) (g : R -> M W (Either E S))
         (e : Either E T),
    (e' <- chain f e ;; chain g e') ≡ chain (fun x => e' <- f x ;; chain g e') e.
Proof.
  intros W E T R S f g [x | l] w; reflexivity.
Qed.

(** X2. [map(f)] is [chain] of [x => of(f(x))], and it is [apply] of [of(f)]. *)
Theorem map_as_chain_and_apply :
  forall (W E T R : Type) (f : T -> M W R) (e : Either E T),
    map f e ≡ chain (fun x => y <- f x ;; of_ y) e /\
    map f e ≡ (ff <- of_ f ;; apply ff e).
Proof.
  intros W E T R f [x | l]; split; intros w; reflexivity.
Qed.

(** X3. [bimap(fe)(ft)] is [map(ft)] followed by [mapLeft(fe)], in either
    order: exactly one of the two selectors runs. *)
Theorem bimap_as_map_mapLeft :
  forall (W E ER T TR : Type) (fe : E -> M W ER) (ft : T -> M W TR) (e : Either E T),
    bimap fe ft e ≡ (e' <- map ft e ;; mapLeft fe e') /\
    bimap fe ft e ≡ (e' <- mapLeft fe e ;; map ft e').
Proof.
  intros W E ER T TR fe ft [x | l]; split; intros w; cbn; unfold bind, ret.
  - destruct (ft x w) as [[y | err] w1]; reflexivity.
  - destruct (ft x w) as [[y | err] w1]; reflexivity.
  - destruct (fe l w) as [[y | err] w1]; reflexivity.
  - destruct (fe l w) as [[y | err] w1]; reflexivity.
Qed.

(** X4. [mapLeft] is a functor on the failure side: it maps the identity to
    the identity, a composition to the composition, and passes a Right
    through without calling the selector. *)
Theorem mapLeft_functor_laws :
  forall (W E E2 E3 T : Type),
    (forall e : Either E T, mapLeft (W:=W) (fun x => ret x) e ≡ ret e) /\
    (forall (f : E -> M W E2) (g : E2 -> M W E3) (e : Either E T),
        (e' <- mapLeft f e ;; mapLeft g e') ≡ mapLeft (fun x => y <- f x ;; g y) e) /\
    (forall (f : E -> M W E2) (x : T), mapLeft f (Right x) ≡ ret (Right x)).
Proof.
  intros. split; [ | split ].
  - intros [v | x] w; reflexivity.
  - intros f g [v | x] w; cbn; [ reflexivity | ].
    unfold bind, ret.
    destruct (f x w) as [[y | err] w1]; [ | reflexivity ].
    cbn. unfold bind, ret.
    destruct (g y w1) as [[z | err] w2]; reflexivity.
  - intros f x w. reflexivity.
Qed.

(** X5. [bimap] maps the two identities to the identity and a pair of
    compositions to the composition. *)
Theorem bimap_functor_laws :
  forall (W E E2 E3 T T2 T3 : Type),
    (forall e : Either E T, bimap (W:=W) (fun x => ret x) (fun x => ret x) e ≡ ret e) /\
    (forall (f1 : E -> M W E2) (f2 : E2 -> M W E3) (g1 : T -> M W T2) (g2 : T2 -> M W T3)
            (e : Either E T),
        (e' <- bimap f1 g1 e ;; bimap f2 g2 e') ≡
        bimap (fun x => y <- f1 x ;; f2 y) (fun x => y <- g1 x ;; g2 y) e).
Proof.
  intros. split.
  - intros [v | x] w; reflexivity.
  - intros f1 f2 g1 g2 [v | x] w; cbn; unfold bind, ret.
    + destruct (g1 v w) as [[y | err] w1]; [ | reflexivity ].
      cbn. unfold bind, ret.
      destruct (g2 y w1) as [[z | err] w2]; reflexivity.
    + destruct (f1 x w) as [[y | err] w1]; [ | reflexivity ].
      cbn. unfold bind, ret.
      destruct (f2 y w1) as [[z | err] w2]; reflexivity.
Qed.

(** X6. [map] and [mapLeft] commute. *)
Theorem map_mapLeft_commute :
  forall (W E E2 T R : Type) (f : T -> M W R) (g : E -> M W E2) (e : Either E T),
    (e' <- map f e ;; mapLeft g e') ≡ (e' <- mapLeft g e ;; map f e').
Proof.
  intros W E E2 T R f g [x | l] w; cbn; unfold bind, ret.
  - destruct (f x w) as [[y | err] w1]; reflexivity.
  - destruct (g l w) as [[y | err] w1]; reflexivity.
Qed.

(** X7. [flap(func)(value)] is [apply(func)(of(value))], and [apply] is
    [lift2] of function application. *)
Theorem flap_apply_lift2 :
  forall (W E T R : Type) (func : Either E (T -> M W R)),
    (forall value : T, flap func value ≡ (x <- of_ value ;; apply func x)) /\
    (forall value : Either E T,
        apply func value ≡ lift2 (fun f => ret (fun x => f x)) func value).
Proof.
  intros W E T R [f | l]; split.
  - intros value w. reflexivity.
  - intros [x | l] w; reflexivity.
  - intros value w. reflexivity.
  - intros [x | l'] w; reflexivity.
Qed.

(** X8. The applicative laws of [apply] and [of]: identity and homomorphism. *)
Theorem apply_of_laws :
  forall (W E T R : Type),
    (forall e : Either E T,
        (ff <- of_ (fun x : T => ret (W:=W) x) ;; apply ff e) ≡ ret e) /\
    (forall (f : T -> M W R) (x : T),
        (ff <- of_ (E:=E) f ;; xx <- of_ x ;; apply ff xx) ≡ (r <- f x ;; of_ r)).
Proof.
  intros. split.
  - intros [v | x] w; reflexivity.
  - intros f x w. reflexivity.
Qed.

(** X9. [applyFirst] and [applySecond] are [lift2] of the two projections. *)
Theorem applyFirst_applySecond_as_lift2 :
  forall (W E T1 T2 : Type) (first : Either E T1) (second : Either E T2),
    applyFirst (W:=W) first second ≡ lift2 (fun x => ret (fun _ => ret x)) first second /\
    applySecond (W:=W) first second ≡ lift2 (fun _ => ret (fun y => ret y)) first second.
Proof.
  intros W E T1 T2 [v1 | e1] [v2 | e2]; split; intros w; reflexivity.
Qed.


(** X10. [lift3(f)(a)(b)(c)] is [apply(lift2(f)(a)(b))(c)] whenever the first two
    applications of [f] return normally and leave the caller state
    unchanged; this is used only where [a] and [b] are Rights and [c] is a
    Left, where [lift3] does not call [f] at all. *)
Theorem lift3_as_lift2_apply :
  forall (W E T1 T2 T3 R : Type) (f : T1 -> M W (T2 -> M W (T3 -> M W R)))
         (a : Either E T1) (b : Either E T2) (c : Either E T3),
    (forall v1 v2, a = Right v1 -> b = Right v2 -> isLeft c = true ->
       forall w, exists g h, f v1 w = (Return g, w) /\ g v2 w = (Return h, w)) ->
    lift3 f a b c ≡ (fab <- lift2 f a b ;; apply fab c).
Proof.
  intros W E T1 T2 T3 R f [v1 | e1] [v2 | e2] [v3 | e3] Hpure w; cbn;
    try reflexivity.
  - unfold bind, ret.
    destruct (f v1 w) as [[g | err] w1]; [ | reflexivity ].
    destruct (g v2 w1) as [[h | err] w2]; [ | reflexivity ].
    cbn. unfold bind, ret.
    destruct (h v3 w2) as [[r | err] w3]; reflexivity.
  - destruct (Hpure v1 v2 eq_refl eq_refl eq_refl w) as (g & h & Hg & Hh).
    unfold bind, ret. rewrite Hg, Hh. reflexivity.
Qed.

Lemma lift3_as_lift2_apply_witness :
  lift3 (W:=unit) (E:=string)
    (fun x => ret (fun y => ret (fun z => ret (x + y + z)))) (Right 1) (Right 2) (Left "e") tt
  = (fab <- lift2 (fun x => ret (fun y => ret (fun z => ret (x + y + z)))) (Right 1) (Right 2) ;;
     apply fab (Left "e")) tt.
Proof.
  apply (@lift3_as_lift2_apply unit string nat nat nat nat
           (fun x => ret (fun y => ret (fun z => ret (x + y + z))))
           (Right 1) (Right 2) (Left "e")).
  intros v1 v2 _ _ _ w.
  exists (fun y => ret (fun z => ret (v1 + y + z))), (fun z => ret (v1 + v2 + z)).
  split; reflexivity.
Defined.

(** X11. [lift2] never invents an outcome: a Right result needs both operands
    to be Rights, and a Left result is the first operand's Left, or the
    second's when the first is a Right. *)
Theorem lift2_result_origin :
  forall (W E T1 T2 R : Type) (f : T1 -> M W (T2 -> M W R))
         (a : Either E T1) (b : Either E T2) (w w' : W),
    (forall r, lift2 f a b w = (Return (Right r), w') ->
       exists v1 v2, a = Right v1 /\ b = Right v2) /\
    (forall e, lift2 f a b w = (Return (Left e), w') ->
       a = Left e \/ (isRight a = true /\ b = Left e)).
Proof.
  intros W E T1 T2 R f [v1 | e1] [v2 | e2] w w'; split; cbn; unfold bind, ret;
    intros x H; try discriminate H; try (inversion H; subst; auto; fail).
  - eauto.
  - destruct (f v1 w) as [[g | err] w1]; [ | discriminate H ].
    destruct (g v2 w1) as [[r | err] w2]; discriminate H.
Qed.

Lemma lift2_result_origin_witness :
  @Left string nat "e" = Left "e" \/
  (isRight (@Left string nat "e") = true /\ @Right string nat 2 = Left "e").
Proof.
  apply (proj2 (@lift2_result_origin unit string nat nat nat
                  (fun x => ret (fun y => ret (x + y))) (Left "e") (Right 2) tt tt)).
  reflexivity.
Defined.

(** X12. [alt] is associative, its result is a Right exactly when one of its
    arguments is, two Lefts give the second one, and [altLazy] with a
    thunk that only returns [b] is [alt] with [b]. *)
Theorem alt_laws :
  forall (W E T : Type) (a b c : Either E T),
    (ab <- alt (W:=W) a b ;; alt ab c) ≡ (bc <- alt b c ;; alt a bc) /\
    (r <- alt (W:=W) a b ;; ret (isRight r)) ≡ ret (isRight a || isRight b) /\
    (forall e1 e2 : E, alt (W:=W) (T:=T) (Left e1) (Left e2) ≡ ret (Left e2)) /\
    altLazy (W:=W) a (fun _ => ret b) ≡ alt a b.
Proof.
  intros W E T [x | l] [y | m] [z | n]; repeat split.
Qed.

(** X13. [extend] applied to the unsafe extraction gives the value back and
    never throws; [extend(f)] is [map] of the function that ignores the
    payload and runs [f] on the whole value; and [extend] is associative. *)
Theorem extend_laws :
  forall (W E T R S : Type),
    (forall (render : E -> M W string) (e : Either E T),
        extend (getRightOrFail render) e ≡ ret e) /\
    (forall (f : Either E T -> M W R) (e : Either E T),
        extend f e ≡ map (fun _ => f e) e) /\
    (forall (f : Either E R -> M W S) (g : Either E T -> M W R) (e : Either E T),
        (e' <- extend g e ;; extend f e') ≡ extend (fun x => e' <- extend g x ;; f e') e).
Proof.
  intros. split; [ | split ].
  - intros render [v | x] w; reflexivity.
  - intros f [v | x] w; reflexivity.
  - intros f g [v | x] w; cbn; [ | reflexivity ].
    unfold bind, ret.
    destruct (g (Right v) w) as [[r | err] w1]; [ | reflexivity ].
    cbn. unfold bind, ret.
    destruct (f (Right r) w1) as [[s | err] w2]; reflexivity.
Qed.

(** X14. [map], [mapLeft], [bimap] and [extend] never change the variant of
    their input, and [chain] never turns a Left into a Right. *)
Theorem variant_preserved :
  forall (W E E2 T R : Type) (e : Either E T) (w w' : W),
    (forall (f : T -> M W R) e', map f e w = (Return e', w') -> isRight e' = isRight e) /\
    (forall (f : E -> M W E2) e', mapLeft f e w = (Return e', w') -> isRight e' = isRight e) /\
    (forall (f : E -> M W E2) (g : T -> M W R) e',
        bimap f g e w = (Return e', w') -> isRight e' = isRight e) /\
    (forall (f : Either E T -> M W R) e',
        extend f e w = (Return e', w') -> isRight e' = isRight e) /\
    (forall (f : T -> M W (Either E R)) e' l,
        chain f e w = (Return e', w') -> e = Left l -> e' = Left l).
Proof.
  intros W E E2 T R [v | x] w w'; repeat apply conj; cbn; unfold bind, ret; intros.
  - destruct (f v w) as [[r | err] w1]; inversion H; reflexivity.
  - inversion H; reflexivity.
  - destruct (g v w) as [[r | err] w1]; inversion H; reflexivity.
  - destruct (f (Right v) w) as [[r | err] w1]; inversion H; reflexivity.
  - discriminate.
  - inversion H; reflexivity.
  - destruct (f x w) as [[r | err] w1]; inversion H; reflexivity.
  - destruct (f x w) as [[r | err] w1]; inversion H; reflexivity.
  - inversion H; reflexivity.
  - inversion H; inversion H0; reflexivity.
Qed.

Lemma variant_preserved_witness :
  isRight (@Right string nat 4) = isRight (@Right string nat 3) /\
  @Left string nat "e" = Left "e".
Proof.
  destruct (@variant_preserved unit string string nat nat (Right 3) tt tt)
    as (Hmap & _).
  destruct (@variant_preserved unit string string nat nat (Left "e") tt tt)
    as (_ & _ & _ & _ & Hchain).
  split.
  - apply (Hmap (fun n => ret (n + 1))). reflexivity.
  - apply (Hchain (fun n => ret (Right n))); reflexivity.
Defined.

(** ** Conversions and round trips *)

(** X15. Through an array and back: [singleFromArray(toArray(e))] and
    [firstFromArray(toArray(e))] are [e] with its failure replaced by the
    lifter's [Empty], that is [mapLeft(_ => Empty)(e)]. *)
Theorem toArray_then_lifters :
  forall (W E T : Type) (undefined : T) (e : Either E T),
    (l <- toArray (W:=W) e ;; singleFromArray undefined l)
      ≡ mapLeft (fun _ => ret TakeSingleError_Empty) e /\
    (l <- toArray (W:=W) e ;; firstFromArray undefined l)
      ≡ mapLeft (fun _ => ret TakeFirstError_Empty) e.
Proof.
  intros W E T undefined [v | x]; split; intros w; reflexivity.
Qed.

(** X16. From an array and back: [toArray(singleFromArray(seq))] is [seq]
    itself when it has one element and the empty array otherwise, and
    [toArray(firstFromArray(seq))] is the array of the first element. *)
Theorem lifters_then_toArray :
  forall (W T : Type) (undefined : T) (seq : list T),
    (r <- singleFromArray (W:=W) undefined seq ;; toArray r)
      ≡ ret (if (List.length seq =? 1)%nat then seq else []) /\
    (r <- firstFromArray (W:=W) undefined seq ;; toArray r) ≡ ret (firstn 1 seq).
Proof.
  intros W T undefined [ | x [ | y rest]]; split; intros w; reflexivity.
Qed.

(** X17. [toArray] yields at most one element, one exactly when the input is a
    Right, and it commutes with [map] of a function without effects. *)
Theorem toArray_shape :
  forall (W E T R : Type) (e : Either E T),
    (l <- toArray (W:=W) e ;; ret (List.length l))
      ≡ ret (if isRight e then 1 else 0) /\
    (forall f : T -> R,
        (e' <- map (W:=W) (fun x => ret (f x)) e ;; toArray e')
          ≡ (l <- toArray e ;; ret (List.map f l))).
Proof.
  intros W E T R [v | x]; split; intros; intros w; reflexivity.
Qed.

(** X18. [defaultTo(d)(e)] is the first element of [toArray(e)] or else [d];
    it is [e]'s payload whatever [d] is when [e] is a Right, where it
    agrees with [getRightOrFail]; and it commutes with [map] of a function
    without effects. *)
Theorem defaultTo_relations :
  forall (W E T R : Type) (d : T) (e : Either E T),
    defaultTo (W:=W) d e ≡ (l <- toArray e ;; ret (hd d l)) /\
    (forall render : E -> M W string,
        isRight e = true -> defaultTo d e ≡ getRightOrFail render e) /\
    (forall f : T -> R,
        (e' <- map (W:=W) (fun x => ret (f x)) e ;; defaultTo (f d) e')
          ≡ (x <- defaultTo d e ;; ret (f x))).
Proof.
  intros W E T R d [v | x]; split; [ | split | | split ]; intros;
    try discriminate; intros w; reflexivity.
Qed.

Lemma defaultTo_relations_witness :
  defaultTo (W:=unit) 0 (@Right string nat 5) tt
  = getRightOrFail (fun s => ret s) (@Right string nat 5) tt.
Proof.
  apply (proj1 (proj2 (@defaultTo_relations unit string nat nat 0 (Right 5)))
           (fun s => ret s) eq_refl).
Defined.

(** X19. [singleFromArray] and [firstFromArray] agree wherever the first
    succeeds, and both report [Empty] exactly on the empty array. *)
Theorem single_first_agree :
  forall (W T : Type) (undefined : T) (seq : list T) (w : W),
    (forall x, singleFromArray undefined seq w = (Return (Right x), w) ->
               firstFromArray undefined seq w = (Return (Right x), w)) /\
    (singleFromArray undefined seq w = (Return (Left TakeSingleError_Empty), w)
       <-> seq = []) /\
    (firstFromArray undefined seq w = (Return (Left TakeFirstError_Empty), w)
       <-> seq = []).
Proof.
  intros W T undefined [ | x [ | y rest]] w; cbn; unfold ret;
    (split; [ | split; split ]); intros;
    try discriminate; try reflexivity;
    try match goal with H : _ = _ |- _ => inversion H; reflexivity end.
Qed.

Lemma single_first_agree_witness :
  firstFromArray (W:=unit) 0 [7] tt = (Return (Right 7), tt).
Proof.
  apply (proj1 (@single_first_agree unit nat 0 [7] tt) 7). reflexivity.
Defined.

(** ** The unsafe extractions *)

Lemma getRightOrFail_throws {W E T} (render : E -> M W string) (e : E) (w : W) :
  exists err w', getRightOrFail (T:=T) render (Left e) w = (Throw err, w').
Proof.
  cbn. unfold bind, throw. destruct (render e w) as [[s | err] w']; eauto.
Qed.

Lemma getLeftOrFail_throws {W E T} (render : T -> M W string) (t : T) (w : W) :
  exists err w', getLeftOrFail (E:=E) render (Right t) w = (Throw err, w').
Proof.
  cbn. unfold bind, throw. destruct (render t w) as [[s | err] w']; eauto.
Qed.

(** X20. [getRightOrFail] returns exactly on Rights and [getLeftOrFail]
    exactly on Lefts, so on every value exactly one of the two throws and
    the other returns; the one that returns leaves the caller state as it
    was (the one that throws converts the payload to a string first). *)
Theorem OrFail_exclusive :
  forall (W E T : Type) (renderE : E -> M W string) (renderT : T -> M W string)
         (e : Either E T) (w : W),
    ((exists x, getRightOrFail renderE e w = (Return x, w)) <-> isRight e = true) /\
    ((exists x, getLeftOrFail renderT e w = (Return x, w)) <-> isLeft e = true) /\
    ((exists err w', getRightOrFail renderE e w = (Throw err, w')) <->
     (exists x, getLeftOrFail renderT e w = (Return x, w))) /\
    ((exists err w', getLeftOrFail renderT e w = (Throw err, w')) <->
     (exists x, getRightOrFail renderE e w = (Return x, w))) /\
    (forall x w', getRightOrFail renderE e w = (Return x, w') -> w' = w) /\
    (forall x w', getLeftOrFail renderT e w = (Return x, w') -> w' = w).
Proof.
  intros W E T renderE renderT [v | x] w.
  - destruct (getLeftOrFail_throws (E:=E) renderT v w) as (err & w1 & Hthrow).
    change (getRightOrFail renderE (Right v) w) with (@Return T v, w).
    rewrite Hthrow. cbn.
    split; [ | split; [ | split; [ | split; [ | split ] ] ] ].
    + split; eauto.
    + split; [ intros [y H]; discriminate H | discriminate ].
    + split; [ intros (e0 & w' & H); discriminate H | intros [y H]; discriminate H ].
    + split; eauto.
    + intros y w' H. inversion H. reflexivity.
    + intros y w' H. discriminate H.
  - destruct (getRightOrFail_throws (T:=T) renderE x w) as (err & w1 & Hthrow).
    change (getLeftOrFail renderT (Left x) w) with (@Return E x, w).
    rewrite Hthrow. cbn.
    split; [ | split; [ | split; [ | split; [ | split ] ] ] ].
    + split; [ intros [y H]; discriminate H | discriminate ].
    + split; eauto.
    + split; eauto.
    + split; [ intros (e0 & w' & H); discriminate H | intros [y H]; discriminate H ].
    + intros y w' H. discriminate H.
    + intros y w' H. inversion H. reflexivity.
Qed.

(** ** Fail-fast against fail-slow *)

Section LiftersCompared.
Context {W E V : Type}.
Implicit Types (o fields : Obj (Either E V)).

Lemma first_left_head fields :
  first_left fields = match lefts fields with [] => None | e :: _ => Some e end.
Proof.
  induction fields as [ | [k [v | e]] rest IH]; cbn; auto.
Qed.

Lemma lefts_perm fields fields' :
  Permutation fields fields' -> Permutation (lefts fields) (lefts fields').
Proof.
  induction 1 as [ | [k [v | e]] l l' Hp IH | [k1 [v1 | e1]] [k2 [v2 | e2]] l | l1 l2 l3 H1 IH1 H2 IH2];
    cbn; auto using Permutation_refl, perm_swap.
  eapply perm_trans; eassumption.
Qed.

Lemma lefts_In fields e :
  In e (lefts fields) -> exists k, In (k, Left e) fields.
Proof.
  induction fields as [ | [k [v | e0]] rest IH]; cbn; [ contradiction | | ].
  - intros H. destruct (IH H) as [k' Hk']. eauto.
  - intros [-> | H]; [ eauto | ]. destruct (IH H) as [k' Hk']. eauto.
Qed.

End LiftersCompared.

(** X22. On every record [liftProps] and [liftPropsCollect] succeed together,
    with the same result, and fail together, [liftProps] with the first
    of the failures that [liftPropsCollect] collects. *)
Theorem lifters_agree :
  forall (W E V : Type) (o : Obj (Either E V)) (w : W),
    wf_obj o ->
    (forall r, liftProps o w = (Return (Right r), w) <->
               liftPropsCollect o w = (Return (Right r), w)) /\
    (forall e, liftProps o w = (Return (Left e), w) <->
               exists rest, liftPropsCollect o w = (Return (Left (e :: rest)), w)).
Proof.
  intros W E V o w Hwf.
  rewrite (@liftProps_fields W E V o Hwf w), (@liftPropsCollect_fields W E V o Hwf w).
  rewrite first_left_head.
  destruct (lefts (Object_entries o)) as [ | e0 rest0]; unfold ret; split; intros x.
  - split; intros H; inversion H; reflexivity.
  - split; [ discriminate | intros [rest H]; discriminate H ].
  - split; discriminate.
  - split.
    + intros H. inversion H; subst. exists rest0. reflexivity.
    + intros [rest H]. inversion H; subst. reflexivity.
Qed.

Lemma wf_index_key_fields : wf_obj index_key_fields.
Proof. unfold wf_obj. cbn. repeat constructor; cbn; intuition discriminate. Qed.

Lemma wf_plain_fields : wf_obj plain_fields.
Proof. unfold wf_obj. cbn. repeat constructor; cbn; intuition discriminate. Qed.

Lemma lifters_agree_witness :
  (liftProps (W:=unit) index_key_fields tt = (Return (Left "y"), tt) <->
   exists rest, liftPropsCollect (W:=unit) index_key_fields tt
                = (Return (Left ("y" :: rest)), tt)).
Proof.
  apply (proj2 (@lifters_agree unit string nat index_key_fields tt
                  wf_index_key_fields)).
Defined.

(** X23. For every record [u] of plain values with no field named
    [__proto__], lifting the record whose fields are the Rights of the
    fields of [u] gives [u] back: both lifters return Right of the entries
    of [u] in enumeration order, a record that shows the same entries as
    [u]. *)
Theorem lifters_of_rights :
  forall (W E V : Type) (u : Obj V),
    wf_obj u ->
    ~ In "__proto__" (List.map fst u) ->
    liftProps (W:=W) (wrap (E:=E) u) ≡ ret (Right (Object_entries u)) /\
    liftPropsCollect (W:=W) (wrap (E:=E) u) ≡ ret (Right (Object_entries u)) /\
    same_record (Object_entries u) u.
Proof.
  intros W E V u Hwf Hproto.
  assert (Hwf' : wf_obj (wrap (E:=E) u)).
  { unfold wf_obj. rewrite keys_wrap. exact Hwf. }
  assert (Hfill : fold_left set_entry
                    (unwrapped (Object_entries (wrap (E:=E) u))) []
                  = Object_entries u).
  { rewrite Object_entries_wrap, unwrapped_wrap.
    rewrite fold_set_fresh; [ reflexivity | | ].
    - cbn. apply wf_Object_entries, Hwf.
    - intros Hin. apply Hproto.
      eapply Permutation_in; [ apply Object_keys_perm | exact Hin ]. }
  assert (Hfirst : first_left (Object_entries (wrap (E:=E) u)) = None).
  { rewrite Object_entries_wrap. apply first_left_wrap. }
  assert (Hlefts : lefts (Object_entries (wrap (E:=E) u)) = []).
  { rewrite Object_entries_wrap. apply lefts_wrap. }
  split; [ | split ].
  - intros w. rewrite (@liftProps_fields W E V _ Hwf' w), Hfirst, Hfill. reflexivity.
  - intros w. rewrite (@liftPropsCollect_fields W E V _ Hwf' w), Hlefts, Hfill.
    reflexivity.
  - apply Object_entries_idem.
Qed.

Lemma wf_plain_values : wf_obj plain_values /\ ~ In "__proto__" (List.map fst plain_values).
Proof.
  split.
  - unfold wf_obj. cbn. repeat constructor; cbn; intuition discriminate.
  - cbn. intuition discriminate.
Qed.

Lemma lifters_of_rights_witness :
  liftProps (W:=unit) (wrap (E:=string) plain_values) tt
  = (Return (Right [("0", 3); ("a", 1)]), tt).
Proof.
  apply (proj1 (@lifters_of_rights unit string nat plain_values
                  (proj1 wf_plain_values) (proj2 wf_plain_values)) tt).
Defined.

Lemma no_proto_index_key_fields : ~ In "__proto__" (List.map fst index_key_fields).
Proof. cbn. intuition discriminate. Qed.

(** X24. On a record with no field named [__proto__], [liftPropsCollect]
    loses no failure and repeats none: the sequence it returns holds the
    payloads of the record's Left fields, each once, and it returns one
    whenever the record has a Left field. *)
Theorem collect_every_failure :
  forall (W E V : Type) (o : Obj (Either E V)) (w : W),
    wf_obj o ->
    ~ In "__proto__" (List.map fst o) ->
    (forall errors, liftPropsCollect o w = (Return (Left errors), w) ->
       Permutation errors (lefts o) /\ errors <> []) /\
    (lefts o <> [] ->
       exists errors, liftPropsCollect o w = (Return (Left errors), w)).
Proof.
  intros W E V o w Hwf _.
  rewrite (@liftPropsCollect_fields W E V o Hwf w).
  pose proof (lefts_perm (Object_entries_perm o)) as Hperm.
  destruct (lefts (Object_entries o)) as [ | e0 rest0] eqn:Hl; unfold ret; split.
  - intros errors H. discriminate H.
  - intros Hne. exfalso. apply Hne.
    apply Permutation_nil. exact Hperm.
  - intros errors H. inversion H; subst. split; [ exact Hperm | discriminate ].
  - intros _. eauto.
Qed.

Lemma collect_every_failure_witness :
  exists errors,
    liftPropsCollect (W:=unit) index_key_fields tt = (Return (Left errors), tt).
Proof.
  apply (proj2 (@collect_every_failure unit string nat index_key_fields tt
                  wf_index_key_fields no_proto_index_key_fields)).
  discriminate.
Defined.

(** X25. On a record with no field named [__proto__], [liftProps] fails
    exactly when some field is a Left, and the failure it reports is the
    payload of one of the record's Left fields. *)
Theorem liftProps_fails_iff :
  forall (W E V : Type) (o : Obj (Either E V)) (w : W),
    wf_obj o ->
    ~ In "__proto__" (List.map fst o) ->
    ((exists e, liftProps o w = (Return (Left e), w)) <-> all_right o = false) /\
    (forall e, liftProps o w = (Return (Left e), w) -> exists k, In (k, Left e) o).
Proof.
  intros W E V o w Hwf _.
  rewrite (@liftProps_fields W E V o Hwf w).
  destruct (all_right_iff o) as [Hiff _].
  destruct (first_left (Object_entries o)) as [e0 | ] eqn:Hf; unfold ret; split.
  - split; [ intros _ | eauto ].
    destruct (all_right o); [ | reflexivity ].
    destruct Hiff as [Hiff _]. discriminate (Hiff eq_refl).
  - intros e H. inversion H; subst.
    rewrite first_left_head in Hf.
    destruct (lefts (Object_entries o)) as [ | e1 rest] eqn:Hl; [ discriminate | ].
    inversion Hf; subst.
    destruct (@lefts_In E V (Object_entries o) e) as [k Hk].
    { rewrite Hl. left. reflexivity. }
    exists k. eapply Permutation_in; [ apply Object_entries_perm | exact Hk ].
  - split.
    + intros [e H]. discriminate H.
    + intros H. destruct Hiff as [_ Hiff]. rewrite (Hiff eq_refl) in H. discriminate H.
  - intros e H. discriminate H.
Qed.

Lemma liftProps_fails_iff_witness :
  exists e, liftProps (W:=unit) index_key_fields tt = (Return (Left e), tt).
Proof.
  apply (proj1 (@liftProps_fails_iff unit string nat index_key_fields tt
                  wf_index_key_fields no_proto_index_key_fields)).
  reflexivity.
Defined.

(** ** Rendering and representation *)

Lemma append_char_inj (s s' : string) (c : ascii) :
  (s ++ String c "")%string = (s' ++ String c "")%string -> s = s'.
Proof.
  revert s'. induction s as [ | a s IH]; intros [ | a' s']; cbn; intros H.
  - reflexivity.
  - inversion H as [[Ha Hs]]. destruct s'; discriminate Hs.
  - inversion H as [[Ha Hs]]. destruct s; discriminate Hs.
  - inversion H as [[Ha Hs]]. f_equal. apply IH, Hs.
Qed.

Lemma toString_Right_inv {W E T} (renderE : E -> M W string) (renderT : T -> M W string)
    (v : T) (w w' : W) (s : string) :
  toString renderE renderT (Right v) w = (Return s, w') ->
  exists r, renderT v w = (Return r, w') /\ s = ("(right " ++ r ++ ")")%string.
Proof.
  cbn. unfold bind, ret.
  destruct (renderT v w) as [[r | err] w1]; intros H; inversion H; subst; eauto.
Qed.

Lemma toString_Left_inv {W E T} (renderE : E -> M W string) (renderT : T -> M W string)
    (e : E) (w w' : W) (s : string) :
  toString renderE renderT (Left e) w = (Return s, w') ->
  exists r, renderE e w = (Return r, w') /\ s = ("(left " ++ r ++ ")")%string.
Proof.
  cbn. unfold bind, ret.
  destruct (renderE e w) as [[r | err] w1]; intros H; inversion H; subst; eauto.
Qed.

(** X26. Whenever it returns, [toString] never renders a Right and a Left
    alike, and it renders different values differently whenever the
    payload renderings do. *)
Theorem toString_distinguishes :
  forall (W E T : Type) (renderE : E -> M W string) (renderT : T -> M W string),
    (forall (v : T) (e : E) (w1 w2 w1' w2' : W) (s1 s2 : string),
        toString renderE renderT (Right v) w1 = (Return s1, w1') ->
        toString renderE renderT (Left e) w2 = (Return s2, w2') ->
        s1 <> s2) /\
    ((forall e e' w1 w2 w1' w2' s,
         renderE e w1 = (Return s, w1') -> renderE e' w2 = (Return s, w2') -> e = e') ->
     (forall v v' w1 w2 w1' w2' s,
         renderT v w1 = (Return s, w1') -> renderT v' w2 = (Return s, w2') -> v = v') ->
     forall (a b : Either E T) (w1 w2 w1' w2' : W) (s : string),
       toString renderE renderT a w1 = (Return s, w1') ->
       toString renderE renderT b w2 = (Return s, w2') ->
       a = b).
Proof.
  intros W E T renderE renderT. split.
  - intros v e w1 w2 w1' w2' s1 s2 H1 H2.
    apply toString_Right_inv in H1. destruct H1 as (r1 & _ & ->).
    apply toString_Left_inv in H2. destruct H2 as (r2 & _ & ->).
    discriminate.
  - intros HE HT [v | e] [v' | e'] w1 w2 w1' w2' s H1 H2.
    + apply toString_Right_inv in H1. destruct H1 as (r1 & Hr1 & ->).
      apply toString_Right_inv in H2. destruct H2 as (r2 & Hr2 & Hs).
      inversion Hs as [Hs']. apply append_char_inj in Hs'. subst r2.
      f_equal. exact (HT _ _ _ _ _ _ _ Hr1 Hr2).
    + apply toString_Right_inv in H1. destruct H1 as (r1 & _ & ->).
      apply toString_Left_inv in H2. destruct H2 as (r2 & _ & Hs). discriminate Hs.
    + apply toString_Left_inv in H1. destruct H1 as (r1 & _ & ->).
      apply toString_Right_inv in H2. destruct H2 as (r2 & _ & Hs). discriminate Hs.
    + apply toString_Left_inv in H1. destruct H1 as (r1 & Hr1 & ->).
      apply toString_Left_inv in H2. destruct H2 as (r2 & Hr2 & Hs).
      inversion Hs as [Hs']. apply append_char_inj in Hs'. subst r2.
      f_equal. exact (HE _ _ _ _ _ _ _ Hr1 Hr2).
Qed.

Lemma ToString_injective (p p' : Payload) (w1 w2 w1' w2' : unit) (s : string) :
  ToString p w1 = (Return s, w1') -> ToString p' w2 = (Return s, w2') -> p = p'.
Proof.
  destruct p, p'; cbn; unfold ret, throw; intros H1 H2;
    try discriminate H1; try discriminate H2.
  inversion H1. inversion H2. congruence.
Qed.

Lemma toString_distinguishes_witness :
  @Right Payload Payload (Text "a") = Right (Text "a").
Proof.
  apply (proj2 (@toString_distinguishes unit Payload Payload ToString ToString)
           ToString_injective ToString_injective
           (Right (Text "a")) (Right (Text "a")) tt tt tt tt "(right a)");
    reflexivity.
Defined.

Lemma own_Right_object {X} (x : X) (key : string) :
  own (Right_object x) key =
  if "type" =? key
  then Some {| held := JsString "right"; is_writable := false;
               is_enumerable := true; is_configurable := false |}
  else if "value" =? key
       then Some {| held := JsPayload x; is_writable := false;
                    is_enumerable := true; is_configurable := false |}
       else None.
Proof. reflexivity. Qed.

Lemma own_Left_object {X} (x : X) (key : string) :
  own (Left_object x) key =
  if "type" =? key
  then Some {| held := JsString "left"; is_writable := false;
               is_enumerable := true; is_configurable := false |}
  else if "value" =? key
       then Some {| held := JsPayload x; is_writable := false;
                    is_enumerable := true; is_configurable := false |}
       else None.
Proof. reflexivity. Qed.

(** X27. The objects that [Right] and [Left] build have the [Either] constant
    as prototype, show exactly the keys [type] and [value], hold the tag
    of their constructor and the payload, and are immutable: no
    assignment, deletion or redefinition of any key can change them. *)
Theorem Either_objects_frozen :
  forall (X : Type) (x : X),
    (prototype (Right_object x) = Either_prototype /\
     prototype (Left_object x) = Either_prototype) /\
    (enumerable_keys (Right_object x) = ["type"; "value"] /\
     enumerable_keys (Left_object x) = ["type"; "value"]) /\
    (as_Either (Right_object x) = Some (Right x) /\
     as_Either (Left_object x) = Some (Left x)) /\
    (forall key,
        can_assign (Right_object x) key = false /\
        can_delete (Right_object x) key = false /\
        can_define (Right_object x) key = false /\
        can_assign (Left_object x) key = false /\
        can_delete (Left_object x) key = false /\
        can_define (Left_object x) key = false).
Proof.
  intros X x. repeat split; try reflexivity;
    unfold can_assign, can_delete, can_define;
    rewrite ?own_Right_object, ?own_Left_object;
    destruct ("type" =? key); try reflexivity;
    destruct ("value" =? key); reflexivity.
Qed.

(** ** Lifting through chain, and how often selectors run *)

(** X28. [lift2] and [lift3] are the nesting of [chain] and [map] that applies
    the function only once every operand is known to be a Right; this
    holds for every function, with or without effects. *)
Theorem lift_as_chain_map :
  forall (W E T1 T2 T3 R : Type),
    (forall (f : T1 -> M W (T2 -> M W R)) (a : Either E T1) (b : Either E T2),
        lift2 f a b ≡ chain (fun x => map (fun y => g <- f x ;; g y) b) a) /\
    (forall (f : T1 -> M W (T2 -> M W (T3 -> M W R)))
            (a : Either E T1) (b : Either E T2) (c : Either E T3),
        lift3 f a b c ≡
        chain (fun x => chain (fun y => map (fun z => g <- f x ;; h <- g y ;; h z) c) b) a).
Proof.
  intros. split.
  - intros f [x | l] [y | m] w; cbn; try reflexivity.
    unfold bind, ret.
    destruct (f x w) as [[g | err] w1]; [ | reflexivity ].
    destruct (g y w1) as [[r | err] w2]; reflexivity.
  - intros f [x | l] [y | m] [z | n] w; cbn; try reflexivity.
    unfold bind, ret.
    destruct (f x w) as [[g | err] w1]; [ | reflexivity ].
    destruct (g y w1) as [[h | err] w2]; [ | reflexivity ].
    destruct (h z w2) as [[r | err] w3]; reflexivity.
Qed.

(** X29. Each of [map], [mapLeft], [chain], [bimap] and [extend] calls a
    selector at most once per call: with the selectors instrumented, the
    log gains one entry, the payload (for [extend] the whole value), when
    the input has the variant of the selector, and none otherwise. *)
Theorem selectors_called_once :
  forall (W E E2 T R : Type) (e : Either E T) (log : list (Call E T)) (w : W),
    (forall f : T -> M W R,
        fst (snd (map (logged CallRight f) e (log, w)))
        = log ++ (if isRight e then [call_of e] else [])) /\
    (forall f : E -> M W E2,
        fst (snd (mapLeft (logged CallLeft f) e (log, w)))
        = log ++ (if isLeft e then [call_of e] else [])) /\
    (forall f : T -> M W (Either E R),
        fst (snd (chain (logged CallRight f) e (log, w)))
        = log ++ (if isRight e then [call_of e] else [])) /\
    (forall (f : E -> M W E2) (g : T -> M W R),
        fst (snd (bimap (logged CallLeft f) (logged CallRight g) e (log, w)))
        = log ++ [call_of e]) /\
    (forall (f : Either E T -> M W R) (elog : list (Either E T)),
        fst (snd (extend (logged (fun x => x) f) e (elog, w)))
        = elog ++ (if isRight e then [e] else [])).
Proof.
  intros W E E2 T R [v | x] log w; repeat apply conj; intros; cbn;
    unfold bind, ret, logged; cbn;
    try (symmetry; apply app_nil_r);
    match goal with
    | |- context [match ?f ?a w with _ => _ end] =>
        destruct (f a w) as [[r | err] w1]; reflexivity
    end.
Qed.
